(** * cpp-signals: a sequential model of [include/signals.hpp]

    The header defines three classes that point at each other:
    [Connection] (two raw back-pointers), [Slot] (a [std::set] of shared
    connection handles) and [Signal<Args...>] (a [std::map] from connection
    handle to [std::function]).  Objects live at addresses; a raw pointer or
    a [shared_ptr] is modelled by the address it holds ([std::less] on
    [shared_ptr] compares the stored pointers, so the two containers are
    keyed by address), and [nullptr] by [None].

    Every member function is a heap transformer returning [option]: [None]
    stands for a dereference of a pointer to an object that is not alive.
    The mutex members carry no state in a single thread of control: every
    [lock_guard] is released at scope exit, and no path of the header takes
    [Signal::m_mutex] twice.  Only a listener calling back into the emitting
    signal does: the emission section has such a call, and one that exits by
    an exception, end the loop.  The order of the locks and writes inside
    [Connection::disconnect] is followed by the traced functions, which list
    the events next to the heap.  A [Connection] record stays in the heap
    for as long as a handle to it may be held: the release of the last
    [shared_ptr] is not followed. *)

From stdpp Require Import base option list sorting gmap.

#[local] Set Warnings "-clear-no-such-hyp".

Abbreviation addr := positive.

(** ** Data model *)

(** [class Connection]: [m_pSignal] and [m_pSlot]. *)
Record Connection := mkConnection {
  m_pSignal : option addr;
  m_pSlot : option addr
}.

(** What a [std::function<void(Args...)>] stored in a signal's table is:
    either the callable handed to [connect(function)], or the lambda
    [[slot, function](Args... args) { (slot->*function)(args...); }] built by
    [connect(slot, function)].  Callables and member functions are named by
    a number; their behaviour is a parameter of the emission section. *)
Inductive Callable :=
  | Fn (function : nat)
  | Method (slot : addr) (function : nat).

(** The heap: the live [Connection]s, the [m_connections] set of every live
    [Slot], and the [m_connections] table of every live [Signal]. *)
Record Heap := mkHeap {
  connections : gmap addr Connection;
  slots : gmap addr (gset addr);
  signals : gmap addr (gmap addr Callable)
}.

Definition empty_heap : Heap := mkHeap ∅ ∅ ∅.

(** Field writes through a pointer. *)
Definition set_pSignal (v : option addr) (C : Connection) : Connection :=
  mkConnection v (m_pSlot C).
Definition set_pSlot (v : option addr) (C : Connection) : Connection :=
  mkConnection (m_pSignal C) v.

Definition store_connection (c : addr) (f : Connection → Connection) (h : Heap) : Heap :=
  mkHeap (alter f c (connections h)) (slots h) (signals h).
Definition store_slot (sl : addr) (f : gset addr → gset addr) (h : Heap) : Heap :=
  mkHeap (connections h) (alter f sl (slots h)) (signals h).
Definition store_signal (s : addr) (f : gmap addr Callable → gmap addr Callable) (h : Heap) : Heap :=
  mkHeap (connections h) (slots h) (alter f s (signals h)).

(** [std::map::insert] keeps the old entry when the key is already there. *)
Definition std_map_insert (k : addr) (v : Callable) (m : gmap addr Callable) : gmap addr Callable :=
  match m !! k with
  | Some _ => m
  | None => <[k:=v]> m
  end.

(** Iteration order of [std::map] and [std::set]: ascending keys. *)
Definition key_le (x y : addr * Callable) : Prop := (x.1 ≤ y.1)%positive.
Global Instance key_le_dec : RelDecision key_le :=
  λ x y, decide (x.1 ≤ y.1)%positive.

Definition entries (m : gmap addr Callable) : list (addr * Callable) :=
  merge_sort key_le (map_to_list m).
Definition members (X : gset addr) : list addr :=
  merge_sort Pos.le (elements X).

(** A loop whose body may fail. *)
Fixpoint for_each {A} (body : A → Heap → option Heap) (l : list A) (h : Heap) : option Heap :=
  match l with
  | [] => Some h
  | x :: l => h' ← body x h; for_each body l h'
  end.

(** ** Object creation *)

(** A default-constructed [Signal] at address [s]. *)
Definition Signal_new (s : addr) (h : Heap) : option Heap :=
  match signals h !! s with
  | Some _ => None
  | None => Some (mkHeap (connections h) (slots h) (<[s:=∅]> (signals h)))
  end.

(** A default-constructed [Slot] (base of a user object) at address [sl]. *)
Definition Slot_new (sl : addr) (h : Heap) : option Heap :=
  match slots h !! sl with
  | Some _ => None
  | None => Some (mkHeap (connections h) (<[sl:=∅]> (slots h)) (signals h))
  end.

(** [new Connection(signal, slot)] returning address [c]; the allocator
    never hands out the address of a live object. *)
Definition Connection_new (c : addr) (signal slot : option addr) (h : Heap) : option Heap :=
  match connections h !! c with
  | Some _ => None
  | None => Some (mkHeap (<[c:=mkConnection signal slot]> (connections h)) (slots h) (signals h))
  end.

(** ** Signal *)

(** [Signal::connect(T * slot, void(T::* function)(Args...))]; [connection]
    is the address [new] returns, and the handle returned to the caller. *)
Definition Signal_connect_slot (this slot : addr) (function : nat) (connection : addr)
    (h : Heap) : option Heap :=
  _ ← signals h !! this;
  _ ← slots h !! slot;
  h1 ← Connection_new connection (Some this) (Some slot) h;
  let h2 := store_signal this (std_map_insert connection (Method slot function)) h1 in
  Some (store_slot slot (λ X, {[connection]} ∪ X) h2).

(** [Signal::connect(std::function<void(Args...)> function)]. *)
Definition Signal_connect (this : addr) (function : nat) (connection : addr)
    (h : Heap) : option Heap :=
  _ ← signals h !! this;
  h1 ← Connection_new connection (Some this) None h;
  Some (store_signal this (std_map_insert connection (Fn function)) h1).

(** [Signal::disconnect(std::shared_ptr<Connection> connection)]. *)
Definition Signal_disconnect (this connection : addr) (h : Heap) : option Heap :=
  m_connections ← signals h !! this;
  match m_connections !! connection with
  | None => Some h
  | Some _ =>
      let h1 := store_signal this (delete connection) h in
      C ← connections h1 !! connection;
      let h2 := store_connection connection (set_pSignal None) h1 in
      match m_pSlot C with
      | Some pSlot =>
          _ ← slots h2 !! pSlot;
          let h3 := store_slot pSlot (λ X, X ∖ {[connection]}) h2 in
          Some (store_connection connection (set_pSlot None) h3)
      | None => Some h2
      end
  end.

(** Body of the loop of [Signal::disconnectAll]. *)
Definition disconnectAll_body (conn : addr) (h : Heap) : option Heap :=
  C ← connections h !! conn;
  let h1 := store_connection conn (set_pSignal None) h in
  match m_pSlot C with
  | Some pSlot =>
      _ ← slots h1 !! pSlot;
      Some (store_slot pSlot (λ X, X ∖ {[conn]}) h1)
  | None => Some h1
  end.

(** [Signal::disconnectAll()]. *)
Definition Signal_disconnectAll (this : addr) (h : Heap) : option Heap :=
  m_connections ← signals h !! this;
  h' ← for_each disconnectAll_body (entries m_connections).*1 h;
  Some (store_signal this (λ _, ∅) h').

(** [Signal::~Signal()]: the body, then the object is gone. *)
Definition Signal_dtor (this : addr) (h : Heap) : option Heap :=
  h' ← Signal_disconnectAll this h;
  Some (mkHeap (connections h') (slots h') (delete this (signals h'))).

(** [Signal::count()]. *)
Definition Signal_count (this : addr) (h : Heap) : option nat :=
  m_connections ← signals h !! this;
  Some (size m_connections).

(** ** Connection *)

(** [Connection::disconnect()]; [tempShared] holds [this]. *)
Definition Connection_disconnect (this : addr) (h : Heap) : option Heap :=
  C ← connections h !! this;
  match m_pSignal C with
  | Some pTmpSignal => Signal_disconnect pTmpSignal this h
  | None => Some h
  end.

(** ** Slot *)

(** Body of the loop of [Slot::~Slot]. *)
Definition Slot_dtor_body (conn : addr) (h : Heap) : option Heap :=
  C ← connections h !! conn;
  match m_pSignal C with
  | Some pTempSignal =>
      let h1 := store_connection conn (set_pSlot None) h in
      let h2 := store_connection conn (set_pSignal None) h1 in
      Signal_disconnect pTempSignal conn h2
  | None => Some h
  end.

(** The loop of [Slot::~Slot] over [m_connections]. *)
Definition Slot_dtor_loop (this : addr) (h : Heap) : option Heap :=
  m_connections ← slots h !! this;
  for_each Slot_dtor_body (members m_connections) h.

(** [Slot::~Slot()]: the loop, then the members and the object are gone. *)
Definition Slot_dtor (this : addr) (h : Heap) : option Heap :=
  h' ← Slot_dtor_loop this h;
  Some (mkHeap (connections h') (delete this (slots h')) (signals h')).

(** ** Emission *)

(** How a call of a listener ends: it returns; it exits by an exception
    (a callable that throws, or an empty [std::function], whose call throws
    [std::bad_function_call] and leaves the state as it was); or it never
    comes back (it waits for a mutex, or loops).  [Returns] and [Throws]
    carry the state the call leaves behind. *)
Inductive Outcome (A : Type) :=
  | Returns (a : A)
  | Throws (a : A)
  | Hangs.
Arguments Returns {A} a.
Arguments Throws {A} a.
Arguments Hangs {A}.

(** The state a call that ended left behind. *)
Definition ended {A} (o : Outcome A) : option A :=
  match o with
  | Returns a | Throws a => Some a
  | Hangs => None
  end.

(** How [emit] ends, with the calls it made, in order: it returns after
    the loop; an exception of a listener leaves the loop and [emit] (there
    is no [try] in it; the [lock_guard] releases [m_mutex]); or it never
    returns, because a listener does not. *)
Inductive Emission (S C : Type) :=
  | Returned (st : S) (calls : list C)
  | Thrown (st : S) (calls : list C)
  | Blocked (calls : list C).
Arguments Returned {S C} st calls.
Arguments Thrown {S C} st calls.
Arguments Blocked {S C} calls.

Definition calls_of {S C} (r : Emission S C) : list C :=
  match r with
  | Returned _ calls | Thrown _ calls | Blocked calls => calls
  end.

Definition final_state {S C} (r : Emission S C) : option S :=
  match r with
  | Returned st _ | Thrown st _ => Some st
  | Blocked _ => None
  end.

(** The emission [r] of the rest of the loop, after the call [call]. *)
Definition after_call {S C} (call : C) (r : Emission S C) : Emission S C :=
  match r with
  | Returned st calls => Returned st (call :: calls)
  | Thrown st calls => Thrown st (call :: calls)
  | Blocked calls => Blocked (call :: calls)
  end.

Global Instance Callable_eq_dec : EqDecision Callable.
Proof. solve_decision. Defined.

Section Emission.
Context {Args W : Type}.

(** What the user's code does when a callable is called by the emission
    at hand: it sees the arguments, the heap and the rest of the program's
    state [W], and ends in one of the three ways.  The call is made with
    [m_mutex] of the emitting signal held, so [Hangs] is the outcome of a
    callable that calls a member function of that signal ([count] and
    [emit] lock it too). *)
Variable run : Callable → Args → Heap * W → Outcome (Heap * W).

(** [kv.second(args...)]: a bound method is called through the captured
    [slot] pointer. *)
Definition invoke (f : Callable) (args : Args) (st : Heap * W)
    : option (Outcome (Heap * W)) :=
  match f with
  | Fn _ => Some (run f args st)
  | Method slot _ => _ ← slots st.1 !! slot; Some (run f args st)
  end.

(** [emit] holds the non-recursive [m_mutex] of the signal for the whole
    loop, and every member function that writes [m_connections]
    ([connect], [disconnect], [disconnectAll], the destructor; [~Slot] and
    [Connection::disconnect] through [disconnect]) takes it first.  So a
    call of a listener that would leave the table of the emitting signal
    changed does not get to its end: it waits for [m_mutex] (locking a
    [std::mutex] again on the thread that owns it is undefined; it blocks
    where it is defined at all).  Whatever [run] says of such a call, the
    loop does not go on after it. *)
Definition comes_back (this : addr) (m_connections : gmap addr Callable)
    (st : Heap * W) : bool :=
  bool_decide (signals st.1 !! this = Some m_connections).

(** The loop of [emit] on signal [this], whose table was [m_connections]
    when the lock was taken, over the entries [kvs] still to come. *)
Fixpoint emit_loop (this : addr) (m_connections : gmap addr Callable)
    (kvs : list (addr * Callable)) (args : Args) (st : Heap * W)
    : option (Emission (Heap * W) (addr * Callable * Args)) :=
  match kvs with
  | [] => Some (Returned st [])
  | kv :: kvs =>
      o ← invoke kv.2 args st;
      match o with
      | Returns st1 =>
          if comes_back this m_connections st1
          then after_call (kv.1, kv.2, args) <$> emit_loop this m_connections kvs args st1
          else Some (Blocked [(kv.1, kv.2, args)])
      | Throws st1 =>
          if comes_back this m_connections st1
          then Some (Thrown st1 [(kv.1, kv.2, args)])
          else Some (Blocked [(kv.1, kv.2, args)])
      | Hangs => Some (Blocked [(kv.1, kv.2, args)])
      end
  end.

(** [Signal::emit(Args ... args)]. *)
Definition Signal_emit (this : addr) (args : Args) (st : Heap * W)
    : option (Emission (Heap * W) (addr * Callable * Args)) :=
  m_connections ← signals st.1 !! this;
  emit_loop this m_connections (entries m_connections) args st.

(** [Signal::operator()(Args ... args)]. *)
Definition Signal_call (this : addr) (args : Args) (st : Heap * W)
    : option (Emission (Heap * W) (addr * Callable * Args)) :=
  m_connections ← signals st.1 !! this;
  emit_loop this m_connections (entries m_connections) args st.

(** The record of a call made for table entry [kv]. *)
Definition call_of (args : Args) (kv : addr * Callable) : addr * Callable * Args :=
  (kv.1, kv.2, args).

(** What the calls, made in order, do to the program's state. *)
Definition run_calls (calls : list (addr * Callable * Args)) (st : Heap * W) : Heap * W :=
  foldl (λ st call, default st (ended (run call.1.2 call.2 st))) st calls.
End Emission.

(** ** The contract of Connection::disconnect *)

(** The contract of [Connection::disconnect] in the words of the
    specification: with a non-null [m_pSignal], take a snapshot of it, null
    it, then call the signal's [disconnect] on this connection; with a null
    one, do nothing. *)
Definition Connection_disconnect_contract (this : addr) (h : Heap) : option Heap :=
  C ← connections h !! this;
  match m_pSignal C with
  | Some snapshot =>
      let h1 := store_connection this (set_pSignal None) h in
      Signal_disconnect snapshot this h1
  | None => Some h
  end.

(** ** Invariants *)

(** What every operation of the header keeps true of the heap:
    - a table entry belongs to a live connection that points back at the
      signal, and at the slot when the entry is a bound method;
    - a non-null [m_pSignal] points at a live signal that has the
      connection in its table;
    - a member of a slot's set is a live, still connected connection that
      points back at the slot;
    - a still connected connection with a non-null [m_pSlot] is in that
      live slot's set. *)
Record wf (h : Heap) : Prop := {
  wf_table : ∀ s T c f,
    signals h !! s = Some T → T !! c = Some f →
    ∃ C, connections h !! c = Some C ∧ m_pSignal C = Some s ∧
         ∀ sl m, f = Method sl m → m_pSlot C = Some sl;
  wf_pSignal : ∀ c C s,
    connections h !! c = Some C → m_pSignal C = Some s →
    ∃ T, signals h !! s = Some T ∧ is_Some (T !! c);
  wf_set : ∀ sl X c,
    slots h !! sl = Some X → c ∈ X →
    ∃ C, connections h !! c = Some C ∧ m_pSlot C = Some sl ∧ is_Some (m_pSignal C);
  wf_pSlot : ∀ c C sl,
    connections h !! c = Some C → m_pSlot C = Some sl → is_Some (m_pSignal C) →
    ∃ X, slots h !! sl = Some X ∧ c ∈ X
}.

(** The invariant of the data model on [m_pSlot]: it is the slot [sl]
    exactly when the connection is in the set of [sl]. *)
Definition slot_backref_inv (h : Heap) : Prop :=
  ∀ c sl,
    (∃ C, connections h !! c = Some C ∧ m_pSlot C = Some sl) ↔
    (∃ X, slots h !! sl = Some X ∧ c ∈ X).

(** ** The heaps the operations produce *)

(** The heap after a connection record at [c] has been created for
    signal [s] and slot [sl], and registered with callable [g]. *)
Definition linked (s c : addr) (g : Callable) (sl : option addr) (h : Heap) : Heap :=
  mkHeap (<[c:=mkConnection (Some s) sl]> (connections h))
         (match sl with
          | Some sl => alter (λ X, {[c]} ∪ X) sl (slots h)
          | None => slots h
          end)
         (alter (<[c:=g]>) s (signals h)).

(** The heap after connection [c], whose record was [C], has been taken
    out of the table of signal [s]. *)
Definition unlinked (s c : addr) (C : Connection) (h : Heap) : Heap :=
  mkHeap (<[c:=mkConnection None None]> (connections h))
         (match m_pSlot C with
          | Some sl => alter (λ X, X ∖ {[c]}) sl (slots h)
          | None => slots h
          end)
         (alter (delete c) s (signals h)).

(** The heap after the connections in [D] have been cut off by the loop of
    [Slot::~Slot]: both back-pointers null, gone from every table, the
    slots' sets as they were. *)
Definition severed (D : gset addr) (h : Heap) : Heap :=
  mkHeap (map_imap (λ c C, Some (if decide (c ∈ D) then mkConnection None None else C))
            (connections h))
         (slots h)
         (filter (λ kv, kv.1 ∉ D) <$> signals h).

(** The heap after [Slot::~Slot] on the slot at [sl] whose set was [X]. *)
Definition Slot_destroyed (sl : addr) (X : gset addr) (h : Heap) : Heap :=
  mkHeap (connections (severed X h)) (delete sl (slots h)) (signals (severed X h)).

(** The heap after the loop of [Signal::disconnectAll] has gone through
    the connections in [D]: [m_pSignal] null, gone from the slots' sets;
    [m_pSlot] is left as it was. *)
Definition cut (D : gset addr) (h : Heap) : Heap :=
  mkHeap (map_imap (λ c C, Some (if decide (c ∈ D) then set_pSignal None C else C))
            (connections h))
         ((λ X, X ∖ D) <$> slots h)
         (signals h).

(** The heap after [Signal::disconnectAll] on the signal at [s] whose
    table was [T]. *)
Definition all_disconnected (s : addr) (T : gmap addr Callable) (h : Heap) : Heap :=
  store_signal s (λ _, ∅) (cut (dom T) h).

(** The heap after [Signal::~Signal]. *)
Definition Signal_destroyed (s : addr) (T : gmap addr Callable) (h : Heap) : Heap :=
  mkHeap (connections (cut (dom T) h)) (slots (cut (dom T) h)) (delete s (signals h)).

(** ** Programs *)

(** The programs a client of the header can run, one call at a time. *)
Inductive step : Heap → Heap → Prop :=
  | step_Signal_new s h h' : Signal_new s h = Some h' → step h h'
  | step_Slot_new sl h h' : Slot_new sl h = Some h' → step h h'
  | step_connect s f c h h' : Signal_connect s f c h = Some h' → step h h'
  | step_connect_slot s sl f c h h' : Signal_connect_slot s sl f c h = Some h' → step h h'
  | step_Connection_disconnect c h h' : Connection_disconnect c h = Some h' → step h h'
  | step_Signal_disconnect s c h h' : Signal_disconnect s c h = Some h' → step h h'
  | step_disconnectAll s h h' : Signal_disconnectAll s h = Some h' → step h h'
  | step_Slot_dtor sl h h' : Slot_dtor sl h = Some h' → step h h'
  | step_Signal_dtor s h h' : Signal_dtor s h = Some h' → step h h'.

(** The heaps a program can produce from the empty one. *)
Definition reachable (h : Heap) : Prop := rtc step empty_heap h.

(** ** The README's examples *)

(** The last example, step by step: [foobar] is the slot object at
    address 1, [signal] the signal at address 1, and [conn1], [conn2],
    [conn3] and the connection to [foobar] are at addresses 1 to 4. *)
Definition demo0 : option Heap :=
  h ← Slot_new 1 empty_heap; Signal_new 1 h.
Definition demo4 : option Heap :=
  h ← demo0; h ← Signal_connect 1 0 1 h; h ← Signal_connect 1 1 2 h;
  h ← Signal_connect 1 2 3 h; Signal_connect_slot 1 1 0 4 h.
Definition demo3 : option Heap := h ← demo4; Connection_disconnect 1 h.
Definition demo2 : option Heap := h ← demo3; Signal_disconnect 1 2 h.
Definition demo1 : option Heap := h ← demo2; Slot_dtor 1 h.
Definition demo_end : option Heap := h ← demo1; Signal_disconnectAll 1 h.

(** The heap of the last example of the README once its four connections
    are made: three callables and one method of [foobar], the slot object
    at address 1, on the signal at address 1. *)
Definition demo_heap : Heap := default empty_heap demo4.
Definition demo_table : gmap addr Callable :=
  {[ 1%positive := Fn 0; 2%positive := Fn 1; 3%positive := Fn 2; 4%positive := Method 1 0 ]}.

(** The first example of the README: one lambda connected to
    [Signal<float, float> onMove], at address 1. *)
Definition onMove_heap : Heap :=
  default empty_heap (Signal_new 1 empty_heap ≫= Signal_connect 1 0 1).

(** A listener that appends the arguments it is called with to the
    program's output and leaves the heap alone. *)
Definition record_args {A} (f : Callable) (a : A) (st : Heap * list A) : Heap * list A :=
  (st.1, st.2 ++ [a]).

(** ** Further invariants and programs *)

(** The invariant of the data model on [m_pSignal]: it is the signal [s]
    exactly when the connection is a key of the table of [s]. *)
Definition signal_backref_inv (h : Heap) : Prop :=
  ∀ c s,
    (∃ C, connections h !! c = Some C ∧ m_pSignal C = Some s) ↔
    (∃ T, signals h !! s = Some T ∧ is_Some (T !! c)).

(** The calls of a program that never calls [disconnectAll] and never
    destroys a signal. *)
Inductive step_keeping_slots : Heap → Heap → Prop :=
  | keep_Signal_new s h h' : Signal_new s h = Some h' → step_keeping_slots h h'
  | keep_Slot_new sl h h' : Slot_new sl h = Some h' → step_keeping_slots h h'
  | keep_connect s f c h h' : Signal_connect s f c h = Some h' → step_keeping_slots h h'
  | keep_connect_slot s sl f c h h' :
      Signal_connect_slot s sl f c h = Some h' → step_keeping_slots h h'
  | keep_Connection_disconnect c h h' :
      Connection_disconnect c h = Some h' → step_keeping_slots h h'
  | keep_Signal_disconnect s c h h' :
      Signal_disconnect s c h = Some h' → step_keeping_slots h h'
  | keep_Slot_dtor sl h h' : Slot_dtor sl h = Some h' → step_keeping_slots h h'.

(** [connect] called once for each listener of a list, each paired with
    the address its connection gets: a callable goes to
    [connect(function)], a method of a slot object to
    [connect(slot, function)]. *)
Definition connect_listener (s : addr) (lc : Callable * addr) (h : Heap) : option Heap :=
  match lc.1 with
  | Fn function => Signal_connect s function lc.2 h
  | Method slot function => Signal_connect_slot s slot function lc.2 h
  end.

(** The heap after [Signal::disconnect] has been called on signal [s] for
    each of the connections in [D], all of them in its table. *)
Definition each_disconnected (s : addr) (D : gset addr) (h : Heap) : Heap :=
  mkHeap (map_imap (λ c C, Some (if decide (c ∈ D) then mkConnection None None else C))
            (connections h))
         ((λ X, X ∖ D) <$> slots h)
         (alter (filter (λ kv, kv.1 ∉ D)) s (signals h)).

(** The heap of the README's last example before any [connect]: the
    slot object [foobar] and the signal, both at address 1; and the
    listeners the example connects, with the addresses of their
    connections. *)
Definition demo_start : Heap := default empty_heap demo0.
Definition demo_listeners : list (Callable * addr) :=
  [(Fn 0, 1%positive); (Fn 1, 2%positive); (Fn 2, 3%positive); (Method 1 0, 4%positive)].

(** ** Connection::disconnect, step by step *)

(** The mutexes of the three classes, and what [Connection::disconnect]
    and [Signal::disconnect] do, in order: taking and releasing a mutex
    (the [lock_guard]s), erasing from a container, writing a back-pointer,
    and the call [pTmpSignal->disconnect(tempShared)], with the signal, the
    connection and whether the handle passed owns the connection
    ([tempShared] is built on [this] with a deleter that does nothing). *)
Inductive Mutex :=
  | SignalMutex (s : addr)
  | ConnectionMutex (c : addr)
  | SlotMutex (sl : addr).

Inductive Event :=
  | Acquire (m : Mutex)
  | Release (m : Mutex)
  | EraseEntry (s c : addr)
  | EraseMember (sl c : addr)
  | WriteSignal (c : addr) (v : option addr)
  | WriteSlot (c : addr) (v : option addr)
  | CallDisconnect (s c : addr) (owning : bool).

(** [Signal::disconnect], with the events next to the heap. *)
Definition Signal_disconnect_traced (this connection : addr) (h : Heap)
    : option (list Event * Heap) :=
  m_connections ← signals h !! this;
  match m_connections !! connection with
  | None => Some ([Acquire (SignalMutex this); Release (SignalMutex this)], h)
  | Some _ =>
      let h1 := store_signal this (delete connection) h in
      C ← connections h1 !! connection;
      let h2 := store_connection connection (set_pSignal None) h1 in
      match m_pSlot C with
      | Some pSlot =>
          _ ← slots h2 !! pSlot;
          let h3 := store_slot pSlot (λ X, X ∖ {[connection]}) h2 in
          Some ([Acquire (SignalMutex this); EraseEntry this connection;
                 Acquire (ConnectionMutex connection); WriteSignal connection None;
                 Acquire (SlotMutex pSlot); EraseMember pSlot connection;
                 WriteSlot connection None; Release (SlotMutex pSlot);
                 Release (ConnectionMutex connection); Release (SignalMutex this)],
                store_connection connection (set_pSlot None) h3)
      | None =>
          Some ([Acquire (SignalMutex this); EraseEntry this connection;
                 Acquire (ConnectionMutex connection); WriteSignal connection None;
                 Release (ConnectionMutex connection); Release (SignalMutex this)],
                h2)
      end
  end.

(** [Connection::disconnect], with the events next to the heap. *)
Definition Connection_disconnect_traced (this : addr) (h : Heap)
    : option (list Event * Heap) :=
  C ← connections h !! this;
  match m_pSignal C with
  | Some pTmpSignal =>
      '(events, h') ← Signal_disconnect_traced pTmpSignal this h;
      Some (Acquire (ConnectionMutex this) :: CallDisconnect pTmpSignal this false ::
              events ++ [Release (ConnectionMutex this)],
            h')
  | None => Some ([Acquire (ConnectionMutex this); Release (ConnectionMutex this)], h)
  end.

(** The order the specification gives for [Connection::disconnect]:
    [m_pSignal] of the connection is nulled before the removal entry point
    of the signal is called. *)
Definition nulls_before_call (c : addr) (events : list Event) : Prop :=
  ∃ pre s owning post,
    events = pre ++ CallDisconnect s c owning :: post ∧ WriteSignal c None ∈ pre.

(** ** Listeners *)

(** Listeners that all return: [g] says what each does to the state. *)
Definition returning {A W} (g : Callable → A → Heap * W → Heap * W)
    (f : Callable) (a : A) (st : Heap * W) : Outcome (Heap * W) :=
  Returns (g f a st).

(** The listeners that record their arguments, when the callable number
    [n] handed to [connect] is an empty [std::function]: its call throws
    [std::bad_function_call] and does nothing else. *)
Definition empty_function_at {A} (n : nat) (f : Callable) (a : A) (st : Heap * list A)
    : Outcome (Heap * list A) :=
  match f with
  | Fn m => if decide (m = n) then Throws st else Returns (record_args f a st)
  | Method _ _ => Returns (record_args f a st)
  end.

(** The listeners that record their arguments, when the callable number
    [n] also calls [disconnect(c)] on the signal [s]: the state is the one
    the call leaves when [m_mutex] of [s] is free for it. *)
Definition disconnecting_at {A} (n : nat) (s c : addr) (f : Callable) (a : A)
    (st : Heap * list A) : Outcome (Heap * list A) :=
  match f with
  | Fn m =>
      if decide (m = n)
      then Returns (default st.1 (Signal_disconnect s c st.1), st.2 ++ [a])
      else Returns (record_args f a st)
  | Method _ _ => Returns (record_args f a st)
  end.

(** * Properties *)

(** ** Iteration visits every element once *)

Lemma entries_Permutation (m : gmap addr Callable) : entries m ≡ₚ map_to_list m.
Proof. apply merge_sort_Permutation. Qed.

Lemma elem_of_entries (m : gmap addr Callable) k v :
  (k, v) ∈ entries m ↔ m !! k = Some v.
Proof. by rewrite entries_Permutation, elem_of_map_to_list. Qed.

Lemma NoDup_entries_keys (m : gmap addr Callable) : NoDup (entries m).*1.
Proof. rewrite entries_Permutation. apply NoDup_fst_map_to_list. Qed.

Lemma elem_of_entries_keys (m : gmap addr Callable) k :
  k ∈ (entries m).*1 ↔ is_Some (m !! k).
Proof.
  rewrite list_elem_of_fmap. split.
  - intros [[k' v] [-> Hkv]]. apply elem_of_entries in Hkv. eauto.
  - intros [v Hv]. exists (k, v). split; [done|]. by apply elem_of_entries.
Qed.

Lemma length_entries (m : gmap addr Callable) : length (entries m) = size m.
Proof. by rewrite entries_Permutation, length_map_to_list. Qed.

Lemma members_Permutation (X : gset addr) : members X ≡ₚ elements X.
Proof. apply merge_sort_Permutation. Qed.

Lemma elem_of_members (X : gset addr) c : c ∈ members X ↔ c ∈ X.
Proof. by rewrite members_Permutation, elem_of_elements. Qed.

Lemma NoDup_members (X : gset addr) : NoDup (members X).
Proof. rewrite members_Permutation. apply NoDup_elements. Qed.

(** Both loops go through the keys in ascending order of address. *)
Lemma key_le_total : Total key_le.
Proof. intros x y. unfold key_le. lia. Qed.

Lemma entries_Sorted (m : gmap addr Callable) : Sorted key_le (entries m).
Proof. apply (@Sorted_merge_sort _ key_le _ key_le_total). Qed.

Lemma members_Sorted (X : gset addr) : Sorted Pos.le (members X).
Proof.
  assert (Total Pos.le) as Htotal by (intros x y; lia).
  apply (@Sorted_merge_sort _ Pos.le _ Htotal).
Qed.

(** ** Heaps *)

Lemma heap_eq (h h' : Heap) :
  connections h = connections h' → slots h = slots h' → signals h = signals h' → h = h'.
Proof. destruct h, h'; simpl; congruence. Qed.

Lemma wf_empty : wf empty_heap.
Proof. split; simpl; intros *; by rewrite lookup_empty. Qed.

Lemma slot_backref_inv_empty : slot_backref_inv empty_heap.
Proof. intros c sl; simpl. split; intros (? & H & _); by rewrite lookup_empty in H. Qed.

(** ** What the operations do to the heap *)

Lemma Signal_disconnect_absent h s T c :
  signals h !! s = Some T → T !! c = None → Signal_disconnect s c h = Some h.
Proof. intros Hs Hc. unfold Signal_disconnect. rewrite Hs; simpl. by rewrite Hc. Qed.

Lemma Signal_disconnect_present h s T c f C :
  signals h !! s = Some T → T !! c = Some f → connections h !! c = Some C →
  (∀ sl, m_pSlot C = Some sl → is_Some (slots h !! sl)) →
  Signal_disconnect s c h = Some (unlinked s c C h).
Proof.
  intros Hs Hc HC Hsl. unfold Signal_disconnect. rewrite Hs; simpl. rewrite Hc.
  rewrite HC; simpl. unfold unlinked. destruct (m_pSlot C) as [sl|] eqn:HpSlot.
  - destruct (Hsl sl eq_refl) as [X HX]. rewrite HX; simpl. f_equal.
    apply heap_eq; simpl; [|done..].
    apply map_eq; intros i. destruct (decide (i = c)) as [->|].
    + rewrite !lookup_alter_eq, lookup_insert_eq, HC. done.
    + by rewrite !lookup_alter_ne, lookup_insert_ne.
  - f_equal. apply heap_eq; simpl; [|done..].
    apply map_eq; intros i. destruct (decide (i = c)) as [->|].
    + rewrite lookup_alter_eq, lookup_insert_eq, HC. simpl.
      unfold set_pSignal. by rewrite HpSlot.
    + by rewrite lookup_alter_ne, lookup_insert_ne.
Qed.

(** On a well-formed heap the hypotheses above follow from the table
    entry alone: [Signal::disconnect] never follows a dangling pointer. *)
Lemma Signal_disconnect_wf h s T c f :
  wf h → signals h !! s = Some T → T !! c = Some f →
  ∃ C, connections h !! c = Some C ∧ m_pSignal C = Some s ∧
       Signal_disconnect s c h = Some (unlinked s c C h).
Proof.
  intros Hwf Hs Hc. destruct (wf_table _ Hwf _ _ _ _ Hs Hc) as (C & HC & HpS & _).
  exists C. split_and!; [done..|].
  eapply Signal_disconnect_present; eauto.
  intros sl Hsl. destruct (wf_pSlot _ Hwf c C sl) as (X & HX & _); eauto.
Qed.

(** The invariant survives the removal of a registered connection. *)
Lemma unlinked_wf h s T c f C :
  wf h → signals h !! s = Some T → T !! c = Some f → connections h !! c = Some C →
  wf (unlinked s c C h).
Proof.
  intros Hwf Hs Hc HC.
  destruct (wf_table _ Hwf _ _ _ _ Hs Hc) as (C' & HC' & HpS & _).
  assert (C' = C) as -> by congruence.
  split; simpl.
  - intros s' T' c' f' Hs' Hc'.
    assert (c' ≠ c ∧ ∃ T0, signals h !! s' = Some T0 ∧ T0 !! c' = Some f') as [Hne (T0 & HT0 & Hc0)].
    { destruct (decide (s' = s)) as [->|].
      - rewrite lookup_alter_eq, Hs in Hs'. simplify_eq/=.
        apply lookup_delete_Some in Hc' as [? ?]. eauto.
      - rewrite lookup_alter_ne in Hs' by done. split; [|eauto].
        intros ->. destruct (wf_table _ Hwf _ _ _ _ Hs' Hc') as (? & ? & ? & _). congruence. }
    rewrite lookup_insert_ne by done. eapply wf_table; eauto.
  - intros c' C1 s' HC1 HpS1.
    destruct (decide (c' = c)) as [->|].
    { rewrite lookup_insert_eq in HC1. by simplify_eq/=. }
    rewrite lookup_insert_ne in HC1 by done.
    destruct (wf_pSignal _ Hwf _ _ _ HC1 HpS1) as (T1 & HT1 & Hin).
    destruct (decide (s' = s)) as [->|].
    + rewrite lookup_alter_eq, HT1. simpl. eexists; split; [done|]. by rewrite lookup_delete_ne.
    + rewrite lookup_alter_ne by done. eauto.
  - intros sl X c' HX Hin.
    assert (c' ≠ c ∧ ∃ X0, slots h !! sl = Some X0 ∧ c' ∈ X0) as [Hne (X0 & HX0 & Hin0)].
    { destruct (m_pSlot C) as [sl0|] eqn:HpSl.
      - destruct (decide (sl = sl0)) as [->|].
        + rewrite lookup_alter_eq in HX. destruct (slots h !! sl0) as [X0|] eqn:HX0; simplify_eq/=.
          split; [set_solver|]. exists X0. split; [done|set_solver].
        + rewrite lookup_alter_ne in HX by done. split; [|eauto].
          intros ->. destruct (wf_set _ Hwf _ _ _ HX Hin) as (? & ? & ? & _). congruence.
      - split; [|eauto]. intros ->.
        destruct (wf_set _ Hwf _ _ _ HX Hin) as (? & ? & ? & _). congruence. }
    rewrite lookup_insert_ne by done. eapply wf_set; eauto.
  - intros c' C1 sl HC1 HpSl1 HpS1.
    destruct (decide (c' = c)) as [->|].
    { rewrite lookup_insert_eq in HC1. by simplify_eq/=. }
    rewrite lookup_insert_ne in HC1 by done.
    destruct (wf_pSlot _ Hwf _ _ _ HC1 HpSl1 HpS1) as (X1 & HX1 & Hin).
    destruct (m_pSlot C) as [sl0|] eqn:HpSl; [|eauto].
    destruct (decide (sl = sl0)) as [->|].
    + rewrite lookup_alter_eq, HX1. simpl. eexists; split; [done|]. set_solver.
    + rewrite lookup_alter_ne by done. eauto.
Qed.

Lemma unlinked_slot_backref_inv h s T c f C :
  slot_backref_inv h → signals h !! s = Some T → T !! c = Some f →
  connections h !! c = Some C → slot_backref_inv (unlinked s c C h).
Proof.
  intros Hinv Hs Hc HC c' sl. simpl.
  destruct (decide (c' = c)) as [->|Hne].
  - rewrite lookup_insert_eq. split; [intros (? & ? & ?); by simplify_eq/=|].
    intros (X & HX & Hin). exfalso.
    destruct (m_pSlot C) as [sl0|] eqn:HpSl.
    + destruct (decide (sl = sl0)) as [->|].
      * rewrite lookup_alter_eq in HX. destruct (slots h !! sl0); simplify_eq/=. set_solver.
      * rewrite lookup_alter_ne in HX by done.
        destruct (proj2 (Hinv c sl)) as (? & ? & ?); [eauto|]. congruence.
    + destruct (proj2 (Hinv c sl)) as (? & ? & ?); [eauto|]. congruence.
  - rewrite lookup_insert_ne by done. rewrite (Hinv c' sl).
    destruct (m_pSlot C) as [sl0|] eqn:HpSl; [|done].
    destruct (decide (sl = sl0)) as [->|]; [|by rewrite lookup_alter_ne].
    rewrite lookup_alter_eq. destruct (slots h !! sl0) as [X0|]; simpl.
    + split; intros (X & ? & ?); simplify_eq; eexists; (split; [done|]); set_solver.
    + split; intros (X & ? & ?); simplify_eq.
Qed.

Lemma wf_fresh_not_in_table h s T c :
  wf h → signals h !! s = Some T → connections h !! c = None → T !! c = None.
Proof.
  intros Hwf Hs Hc. destruct (T !! c) as [f|] eqn:Hf; [|done].
  destruct (wf_table _ Hwf _ _ _ _ Hs Hf) as (? & ? & _). congruence.
Qed.

Lemma Signal_connect_eq h s f c h' :
  wf h → Signal_connect s f c h = Some h' →
  connections h !! c = None ∧ is_Some (signals h !! s) ∧ h' = linked s c (Fn f) None h.
Proof.
  intros Hwf. unfold Signal_connect, Connection_new.
  destruct (signals h !! s) as [T|] eqn:Hs; simpl; [|done].
  destruct (connections h !! c) eqn:Hc; simpl; [done|].
  intros [= <-]. split_and!; [done|eauto|].
  apply heap_eq; simpl; [done..|].
  apply map_eq; intros i. destruct (decide (i = s)) as [->|]; [|by rewrite !lookup_alter_ne].
  rewrite !lookup_alter_eq, Hs. simpl. unfold std_map_insert.
  by rewrite (wf_fresh_not_in_table h s T c).
Qed.

Lemma Signal_connect_slot_eq h s sl f c h' :
  wf h → Signal_connect_slot s sl f c h = Some h' →
  connections h !! c = None ∧ is_Some (signals h !! s) ∧ is_Some (slots h !! sl) ∧
  h' = linked s c (Method sl f) (Some sl) h.
Proof.
  intros Hwf. unfold Signal_connect_slot, Connection_new.
  destruct (signals h !! s) as [T|] eqn:Hs; simpl; [|done].
  destruct (slots h !! sl) as [X|] eqn:Hsl; simpl; [|done].
  destruct (connections h !! c) eqn:Hc; simpl; [done|].
  intros [= <-]. split_and!; [done|eauto..|].
  apply heap_eq; simpl; [done..|].
  apply map_eq; intros i. destruct (decide (i = s)) as [->|]; [|by rewrite !lookup_alter_ne].
  rewrite !lookup_alter_eq, Hs. simpl. unfold std_map_insert.
  by rewrite (wf_fresh_not_in_table h s T c).
Qed.

Lemma Signal_connect_Some h s f c :
  is_Some (signals h !! s) → connections h !! c = None →
  is_Some (Signal_connect s f c h).
Proof.
  intros [T Hs] Hc. unfold Signal_connect, Connection_new. rewrite Hs, Hc. simpl. eauto.
Qed.

Lemma Signal_connect_slot_Some h s sl f c :
  is_Some (signals h !! s) → is_Some (slots h !! sl) → connections h !! c = None →
  is_Some (Signal_connect_slot s sl f c h).
Proof.
  intros [T Hs] [X HX] Hc. unfold Signal_connect_slot, Connection_new.
  rewrite Hs, HX, Hc. simpl. eauto.
Qed.

Lemma linked_wf h s c g sl :
  wf h → connections h !! c = None → is_Some (signals h !! s) →
  (∀ sl0, sl = Some sl0 → is_Some (slots h !! sl0)) →
  (∀ sl0 m, g = Method sl0 m → sl = Some sl0) →
  wf (linked s c g sl h).
Proof.
  intros Hwf Hc [T Hs] Hsl Hg. split; simpl.
  - intros s' T' c' f' Hs' Hc'.
    destruct (decide (s' = s)) as [->|].
    + rewrite lookup_alter_eq, Hs in Hs'. simplify_eq/=.
      destruct (decide (c' = c)) as [->|].
      * rewrite lookup_insert_eq in Hc'. simplify_eq. rewrite lookup_insert_eq.
        eexists; split_and!; [done..|]. simpl. eauto.
      * rewrite lookup_insert_ne in Hc' by done. rewrite lookup_insert_ne by done.
        eapply wf_table; eauto.
    + rewrite lookup_alter_ne in Hs' by done.
      destruct (wf_table _ Hwf _ _ _ _ Hs' Hc') as (C & HC & ?).
      rewrite lookup_insert_ne by congruence. eauto.
  - intros c' C s' HC HpS.
    destruct (decide (c' = c)) as [->|].
    + rewrite lookup_insert_eq in HC. simplify_eq/=.
      rewrite lookup_alter_eq, Hs. simpl. eexists; split; [done|].
      rewrite lookup_insert_eq. eauto.
    + rewrite lookup_insert_ne in HC by done.
      destruct (wf_pSignal _ Hwf _ _ _ HC HpS) as (T1 & HT1 & Hin).
      destruct (decide (s' = s)) as [->|]; [|rewrite lookup_alter_ne by done; eauto].
      rewrite lookup_alter_eq, HT1. simpl. eexists; split; [done|].
      by rewrite lookup_insert_ne.
  - intros sl' X c' HX Hin.
    destruct (decide (c' = c)) as [->|].
    + rewrite lookup_insert_eq. destruct sl as [sl0|].
      * destruct (decide (sl' = sl0)) as [->|]; [eexists; split_and!; eauto|].
        rewrite lookup_alter_ne in HX by done.
        destruct (wf_set _ Hwf _ _ _ HX Hin) as (? & ? & _). congruence.
      * destruct (wf_set _ Hwf _ _ _ HX Hin) as (? & ? & _). congruence.
    + rewrite lookup_insert_ne by done. destruct sl as [sl0|]; [|eapply wf_set; eauto].
      destruct (decide (sl' = sl0)) as [->|].
      * rewrite lookup_alter_eq in HX. destruct (slots h !! sl0) as [X0|] eqn:HX0; simplify_eq/=.
        eapply wf_set; eauto. set_solver.
      * rewrite lookup_alter_ne in HX by done. eapply wf_set; eauto.
  - intros c' C sl' HC HpSl HpS.
    destruct (decide (c' = c)) as [->|].
    + rewrite lookup_insert_eq in HC. simplify_eq/=.
      destruct (Hsl sl' eq_refl) as [X HX]. rewrite lookup_alter_eq, HX. simpl.
      eexists; split; [done|]. set_solver.
    + rewrite lookup_insert_ne in HC by done.
      destruct (wf_pSlot _ Hwf _ _ _ HC HpSl HpS) as (X & HX & Hin).
      destruct sl as [sl0|]; [|eauto].
      destruct (decide (sl' = sl0)) as [->|]; [|rewrite lookup_alter_ne by done; eauto].
      rewrite lookup_alter_eq, HX. simpl. eexists; split; [done|]. set_solver.
Qed.

Lemma linked_slot_backref_inv h s c g sl :
  slot_backref_inv h → connections h !! c = None →
  (∀ sl0, sl = Some sl0 → is_Some (slots h !! sl0)) →
  slot_backref_inv (linked s c g sl h).
Proof.
  intros Hinv Hc Hsl c' sl'. simpl.
  destruct (decide (c' = c)) as [->|Hne].
  - rewrite lookup_insert_eq. split.
    + intros (? & ? & ?); simplify_eq/=. destruct (Hsl sl' eq_refl) as [X HX].
      rewrite lookup_alter_eq, HX. simpl. eexists; split; [done|]. set_solver.
    + intros (X & HX & Hin). destruct sl as [sl0|].
      * destruct (decide (sl' = sl0)) as [->|]; [eauto|].
        rewrite lookup_alter_ne in HX by done.
        destruct (proj2 (Hinv c sl')) as (? & ? & ?); [eauto|]. congruence.
      * destruct (proj2 (Hinv c sl')) as (? & ? & ?); [eauto|]. congruence.
  - rewrite lookup_insert_ne by done. rewrite (Hinv c' sl').
    destruct sl as [sl0|]; [|done].
    destruct (decide (sl' = sl0)) as [->|]; [|by rewrite lookup_alter_ne].
    rewrite lookup_alter_eq. destruct (slots h !! sl0) as [X0|]; simpl.
    + split; intros (X & ? & ?); simplify_eq; eexists; (split; [done|]); set_solver.
    + split; intros (X & ? & ?); simplify_eq.
Qed.

(** ** The loop of the Slot destructor *)

(** The body of the loop never touches a slot's set, whatever the heap:
    the range-for of [~Slot] runs over a set that does not change. *)
Lemma Slot_dtor_body_slots c h h' : Slot_dtor_body c h = Some h' → slots h' = slots h.
Proof.
  unfold Slot_dtor_body. destruct (connections h !! c) as [C|] eqn:HC; simpl; [|done].
  destruct (m_pSignal C) as [s|]; [|by intros [= <-]].
  unfold Signal_disconnect. simpl.
  destruct (signals h !! s) as [T|]; simpl; [|done].
  destruct (T !! c); [|by intros [= <-]].
  rewrite !lookup_alter_eq, HC. simpl. by intros [= <-].
Qed.

Lemma lookup_severed_connection D h c :
  connections (severed D h) !! c =
    (λ C, if decide (c ∈ D) then mkConnection None None else C) <$> connections h !! c.
Proof. simpl. rewrite map_lookup_imap. by destruct (connections h !! c). Qed.

Lemma filter_notin_empty (T : gmap addr Callable) :
  filter (λ kv : addr * Callable, kv.1 ∉ (∅ : gset addr)) T = T.
Proof. apply map_filter_id. set_solver. Qed.

Lemma filter_notin_union_singleton (T : gmap addr Callable) (D : gset addr) c :
  filter (λ kv : addr * Callable, kv.1 ∉ D ∪ {[c]}) T =
  delete c (filter (λ kv : addr * Callable, kv.1 ∉ D) T).
Proof.
  apply map_eq; intros i. apply option_eq; intros v.
  rewrite lookup_delete_Some, !map_lookup_filter_Some. simpl. set_solver.
Qed.

Lemma severed_empty h : severed ∅ h = h.
Proof.
  apply heap_eq; simpl; [|done|].
  - apply map_eq; intros c. rewrite map_lookup_imap.
    destruct (connections h !! c); simpl; [|done]. by rewrite decide_False by set_solver.
  - apply map_eq; intros s. rewrite lookup_fmap.
    destruct (signals h !! s); simpl; [|done]. f_equal. apply filter_notin_empty.
Qed.

Lemma Slot_dtor_body_severed h D c C :
  wf h → c ∉ D → connections h !! c = Some C → is_Some (m_pSignal C) →
  Slot_dtor_body c (severed D h) = Some (severed (D ∪ {[c]}) h).
Proof.
  intros Hwf HD HC [s HpS]. unfold Slot_dtor_body.
  rewrite lookup_severed_connection, HC. simpl. rewrite decide_False by done. rewrite HpS.
  destruct (wf_pSignal _ Hwf _ _ _ HC HpS) as (T & HT & [f Hf]).
  erewrite Signal_disconnect_present with (C := mkConnection None None) (T := filter (λ kv, kv.1 ∉ D) T);
    [| simpl; by rewrite lookup_fmap, HT
     | apply map_lookup_filter_Some; split; [exact Hf|done]
     | simpl; rewrite !lookup_alter_eq, map_lookup_imap, HC; simpl; by rewrite decide_False
     | by intros ? [=] ].
  f_equal. apply heap_eq; simpl; [|done|].
  - apply map_eq; intros i. rewrite map_lookup_imap.
    destruct (decide (i = c)) as [->|].
    + rewrite lookup_insert_eq, HC. simpl. by rewrite decide_True by set_solver.
    + rewrite lookup_insert_ne, !lookup_alter_ne, map_lookup_imap by done.
      destruct (connections h !! i); simpl; [|done]. f_equal.
      destruct (decide (i ∈ D)); [by rewrite decide_True by set_solver|].
      by rewrite decide_False by set_solver.
  - apply map_eq; intros s'. rewrite lookup_fmap.
    destruct (decide (s' = s)) as [->|].
    + rewrite lookup_alter_eq, lookup_fmap, HT. simpl. f_equal.
      symmetry. apply filter_notin_union_singleton.
    + rewrite lookup_alter_ne, lookup_fmap by done.
      destruct (signals h !! s') as [T'|] eqn:HT'; simpl; [|done]. f_equal.
      symmetry. etrans; [apply filter_notin_union_singleton|]. apply delete_id.
      apply map_lookup_filter_None. left.
      destruct (T' !! c) as [f'|] eqn:Hf'; [|done].
      destruct (wf_table _ Hwf _ _ _ _ HT' Hf') as (? & ? & ? & _). congruence.
Qed.

Lemma Slot_dtor_for_each_severed h l D :
  wf h → NoDup l →
  (∀ c, c ∈ l → (c ∉ D) ∧ (∃ C, connections h !! c = Some C ∧ is_Some (m_pSignal C))) →
  for_each Slot_dtor_body l (severed D h) = Some (severed (D ∪ list_to_set l) h).
Proof.
  intros Hwf. revert D. induction l as [|c l IH]; intros D Hnd Hl; simpl.
  - by rewrite union_empty_r_L.
  - apply NoDup_cons in Hnd as [Hc Hnd].
    destruct (Hl c) as (HD & C & HC & HpS); [set_solver|].
    rewrite (Slot_dtor_body_severed h D c C) by done. simpl.
    rewrite IH; [f_equal; f_equal; set_solver|done|].
    intros c' Hc'. destruct (Hl c') as (? & ?); [set_solver|]. split; [set_solver|done].
Qed.

Lemma list_to_set_members (X : gset addr) : list_to_set (members X) = X.
Proof. apply set_eq; intros c. by rewrite elem_of_list_to_set, elem_of_members. Qed.

(** On a well-formed heap the loop runs to its end and cuts off exactly
    the members of the slot's set. *)
Lemma Slot_dtor_loop_wf h sl X :
  wf h → slots h !! sl = Some X → Slot_dtor_loop sl h = Some (severed X h).
Proof.
  intros Hwf HX. unfold Slot_dtor_loop. rewrite HX. simpl.
  rewrite <-(severed_empty h) at 1.
  rewrite Slot_dtor_for_each_severed; [|done|apply NoDup_members|].
  - by rewrite union_empty_l_L, list_to_set_members.
  - intros c Hc%elem_of_members. split; [set_solver|].
    destruct (wf_set _ Hwf _ _ _ HX Hc) as (C & ? & ? & ?). eauto.
Qed.

Lemma Slot_dtor_wf_eq h sl X :
  wf h → slots h !! sl = Some X → Slot_dtor sl h = Some (Slot_destroyed sl X h).
Proof. intros Hwf HX. unfold Slot_dtor. by rewrite (Slot_dtor_loop_wf h sl X). Qed.

Lemma Slot_destroyed_wf h sl X :
  wf h → slots h !! sl = Some X → wf (Slot_destroyed sl X h).
Proof.
  intros Hwf HX. split; unfold Slot_destroyed.
  - intros s T' c f Hs Hc. cbn [signals connections severed] in *.
    rewrite lookup_fmap in Hs. destruct (signals h !! s) as [T|] eqn:HT; simplify_eq/=.
    apply map_lookup_filter_Some in Hc as [Hc Hn]; simpl in Hn.
    destruct (wf_table _ Hwf _ _ _ _ HT Hc) as (C & HC & ?).
    exists C. rewrite map_lookup_imap, HC. simpl. by rewrite decide_False.
  - intros c C' s HC' HpS. cbn [signals connections severed] in *.
    rewrite map_lookup_imap in HC'. destruct (connections h !! c) as [C|] eqn:HC; simplify_eq/=.
    destruct (decide (c ∈ X)); [done|].
    destruct (wf_pSignal _ Hwf _ _ _ HC HpS) as (T & HT & [f Hf]).
    rewrite lookup_fmap, HT. simpl. eexists; split; [done|]. exists f.
    by apply map_lookup_filter_Some.
  - intros sl' X' c HX' Hc. cbn [slots connections severed] in *.
    apply lookup_delete_Some in HX' as [Hne HX'].
    destruct (wf_set _ Hwf _ _ _ HX' Hc) as (C & HC & HpSl & ?).
    exists C. rewrite map_lookup_imap, HC. simpl. rewrite decide_False; [done|].
    intros Hin. destruct (wf_set _ Hwf _ _ _ HX Hin) as (? & ? & ? & _). congruence.
  - intros c C' sl' HC' HpSl HpS. cbn [slots connections severed] in *.
    rewrite map_lookup_imap in HC'. destruct (connections h !! c) as [C|] eqn:HC; simplify_eq/=.
    destruct (decide (c ∈ X)); [done|].
    destruct (wf_pSlot _ Hwf _ _ _ HC HpSl HpS) as (X' & HX' & Hin).
    exists X'. split; [|done]. apply lookup_delete_Some. split; [|done]. congruence.
Qed.

Lemma Slot_destroyed_slot_backref_inv h sl X :
  wf h → slot_backref_inv h → slots h !! sl = Some X →
  slot_backref_inv (Slot_destroyed sl X h).
Proof.
  intros Hwf Hinv HX c sl'. unfold Slot_destroyed. cbn [slots connections severed].
  rewrite map_lookup_imap. split.
  - intros (C' & HC' & HpSl). destruct (connections h !! c) as [C|] eqn:HC; simplify_eq/=.
    destruct (decide (c ∈ X)); [done|].
    destruct (proj1 (Hinv c sl')) as (X' & HX' & Hin); [eauto|].
    exists X'. split; [|done]. apply lookup_delete_Some. split; [|done]. congruence.
  - intros (X' & [Hne HX']%lookup_delete_Some & Hin).
    destruct (proj2 (Hinv c sl')) as (C & HC & HpSl); [eauto|].
    exists C. rewrite HC. simpl. rewrite decide_False; [done|].
    intros Hin'. destruct (wf_set _ Hwf _ _ _ HX Hin') as (? & ? & ? & _). congruence.
Qed.

(** ** The loop of disconnectAll *)

(** The body of the loop never touches a table, whatever the heap: the
    range-for of [disconnectAll] runs over a table that does not change. *)
Lemma disconnectAll_body_signals c h h' :
  disconnectAll_body c h = Some h' → signals h' = signals h.
Proof.
  unfold disconnectAll_body. destruct (connections h !! c) as [C|]; simpl; [|done].
  destruct (m_pSlot C) as [sl|]; [|by intros [= <-]].
  destruct (slots h !! sl); simpl; [|done]. by intros [= <-].
Qed.

Lemma cut_empty h : cut ∅ h = h.
Proof.
  apply heap_eq; simpl; [| |done].
  - apply map_eq; intros c. rewrite map_lookup_imap.
    destruct (connections h !! c); simpl; [|done]. by rewrite decide_False by set_solver.
  - apply map_eq; intros s. rewrite lookup_fmap.
    destruct (slots h !! s); simpl; [|done]. f_equal. set_solver.
Qed.

Lemma disconnectAll_body_cut h D c C :
  wf h → c ∉ D → connections h !! c = Some C → is_Some (m_pSignal C) →
  disconnectAll_body c (cut D h) = Some (cut (D ∪ {[c]}) h).
Proof.
  intros Hwf HD HC HpS. unfold disconnectAll_body.
  cbn [connections cut]. rewrite map_lookup_imap, HC. simpl. rewrite decide_False by done.
  assert (∀ sl X, slots h !! sl = Some X → m_pSlot C ≠ Some sl → X ∖ D = X ∖ (D ∪ {[c]})) as Hother.
  { intros sl X HX Hne. assert (c ∉ X); [|set_solver].
    intros Hin. destruct (wf_set _ Hwf _ _ _ HX Hin) as (? & ? & ? & _). congruence. }
  assert (alter (set_pSignal None) c
            (map_imap (λ c C, Some (if decide (c ∈ D) then set_pSignal None C else C))
               (connections h)) =
          map_imap (λ c0 C, Some (if decide (c0 ∈ D ∪ {[c]}) then set_pSignal None C else C))
            (connections h)) as Hconn.
  { apply map_eq; intros i. rewrite map_lookup_imap.
    destruct (decide (i = c)) as [->|].
    - rewrite lookup_alter_eq, map_lookup_imap, HC. simpl.
      rewrite decide_False by done. by rewrite decide_True by set_solver.
    - rewrite lookup_alter_ne, map_lookup_imap by done.
      destruct (connections h !! i); simpl; [|done]. f_equal.
      destruct (decide (i ∈ D)); [by rewrite decide_True by set_solver|].
      by rewrite decide_False by set_solver. }
  destruct (m_pSlot C) as [sl|] eqn:HpSl.
  - destruct (wf_pSlot _ Hwf _ _ _ HC HpSl HpS) as (X & HX & Hin).
    rewrite lookup_fmap, HX. simpl. f_equal. apply heap_eq; simpl; [done| |done].
    apply map_eq; intros sl'. rewrite lookup_fmap.
    destruct (decide (sl' = sl)) as [->|].
    + rewrite lookup_alter_eq, lookup_fmap, HX. simpl. f_equal. set_solver.
    + rewrite lookup_alter_ne, lookup_fmap by done.
      destruct (slots h !! sl') as [X'|] eqn:HX'; simpl; [|done]. f_equal.
      apply (Hother sl'); [done|congruence].
  - f_equal. apply heap_eq; simpl; [done| |done].
    apply map_eq; intros sl'. rewrite !lookup_fmap.
    destruct (slots h !! sl') as [X'|] eqn:HX'; simpl; [|done]. f_equal.
    by apply (Hother sl').
Qed.

Lemma disconnectAll_for_each_cut h l D :
  wf h → NoDup l →
  (∀ c, c ∈ l → (c ∉ D) ∧ (∃ C, connections h !! c = Some C ∧ is_Some (m_pSignal C))) →
  for_each disconnectAll_body l (cut D h) = Some (cut (D ∪ list_to_set l) h).
Proof.
  intros Hwf. revert D. induction l as [|c l IH]; intros D Hnd Hl; simpl.
  - by rewrite union_empty_r_L.
  - apply NoDup_cons in Hnd as [Hc Hnd].
    destruct (Hl c) as (HD & C & HC & HpS); [set_solver|].
    rewrite (disconnectAll_body_cut h D c C) by done. simpl.
    rewrite IH; [f_equal; f_equal; set_solver|done|].
    intros c' Hc'. destruct (Hl c') as (? & ?); [set_solver|]. split; [set_solver|done].
Qed.

Lemma list_to_set_entries_keys (T : gmap addr Callable) :
  list_to_set (entries T).*1 = dom T.
Proof.
  apply set_eq; intros c.
  by rewrite elem_of_list_to_set, elem_of_entries_keys, elem_of_dom.
Qed.

(** On a well-formed heap [disconnectAll] runs to its end. *)
Lemma Signal_disconnectAll_wf_eq h s T :
  wf h → signals h !! s = Some T →
  Signal_disconnectAll s h = Some (all_disconnected s T h).
Proof.
  intros Hwf HT. unfold Signal_disconnectAll. rewrite HT. simpl.
  rewrite <-(cut_empty h) at 1.
  rewrite disconnectAll_for_each_cut; [|done|apply NoDup_entries_keys|].
  - simpl. by rewrite union_empty_l_L, list_to_set_entries_keys.
  - intros c [f Hf]%elem_of_entries_keys. split; [set_solver|].
    destruct (wf_table _ Hwf _ _ _ _ HT Hf) as (C & ? & HpS & _). exists C. rewrite HpS. eauto.
Qed.

Lemma all_disconnected_wf h s T :
  wf h → signals h !! s = Some T → wf (all_disconnected s T h).
Proof.
  intros Hwf HT.
  assert (∀ c C s', connections h !! c = Some C → m_pSignal C = Some s' →
            c ∈ dom T → s' = s) as Hown.
  { intros c C s' HC HpS [f Hf]%elem_of_dom.
    destruct (wf_table _ Hwf _ _ _ _ HT Hf) as (? & ? & ? & _). congruence. }
  split; unfold all_disconnected; cbn [store_signal cut connections slots signals].
  - intros s' T' c f Hs' Hc.
    destruct (decide (s' = s)) as [->|].
    { rewrite lookup_alter_eq, HT in Hs'. by simplify_eq/=. }
    rewrite lookup_alter_ne in Hs' by done.
    destruct (wf_table _ Hwf _ _ _ _ Hs' Hc) as (C & HC & HpS & ?).
    exists C. rewrite map_lookup_imap, HC. simpl. rewrite decide_False; [done|].
    intros Hin. by specialize (Hown _ _ _ HC HpS Hin).
  - intros c C' s' HC' HpS.
    rewrite map_lookup_imap in HC'. destruct (connections h !! c) as [C|] eqn:HC; simplify_eq/=.
    destruct (decide (c ∈ dom T)) as [|Hn]; [done|].
    destruct (wf_pSignal _ Hwf _ _ _ HC HpS) as (T' & HT' & Hin).
    destruct (decide (s' = s)) as [->|]; [|rewrite lookup_alter_ne by done; eauto].
    simplify_eq. by apply elem_of_dom in Hin.
  - intros sl X' c HX' Hc.
    rewrite lookup_fmap in HX'. destruct (slots h !! sl) as [X|] eqn:HX; simplify_eq/=.
    apply elem_of_difference in Hc as [Hc Hn].
    destruct (wf_set _ Hwf _ _ _ HX Hc) as (C & HC & ? & ?).
    exists C. rewrite map_lookup_imap, HC. simpl. by rewrite decide_False.
  - intros c C' sl HC' HpSl HpS.
    rewrite map_lookup_imap in HC'. destruct (connections h !! c) as [C|] eqn:HC; simplify_eq/=.
    destruct (decide (c ∈ dom T)) as [|Hn]; [by destruct HpS|].
    destruct (wf_pSlot _ Hwf _ _ _ HC HpSl HpS) as (X & HX & Hin).
    rewrite lookup_fmap, HX. simpl. eexists; split; [done|]. set_solver.
Qed.

Lemma Signal_dtor_wf_eq h s T :
  wf h → signals h !! s = Some T → Signal_dtor s h = Some (Signal_destroyed s T h).
Proof.
  intros Hwf HT. unfold Signal_dtor. rewrite (Signal_disconnectAll_wf_eq h s T) by done.
  simpl. f_equal. apply heap_eq; simpl; [done..|].
  apply map_eq; intros i. destruct (decide (i = s)) as [->|].
  - by rewrite !lookup_delete_eq.
  - by rewrite !lookup_delete_ne, lookup_alter_ne.
Qed.

Lemma Signal_destroyed_wf h s T :
  wf h → signals h !! s = Some T → wf (Signal_destroyed s T h).
Proof.
  intros Hwf HT. pose proof (all_disconnected_wf h s T Hwf HT) as Hwf'.
  split; unfold Signal_destroyed; cbn [connections slots signals].
  - intros s' T' c f [Hne Hs']%lookup_delete_Some Hc.
    eapply (wf_table _ Hwf'); [|done].
    unfold all_disconnected; simpl. by rewrite lookup_alter_ne.
  - intros c C' s' HC' HpS.
    destruct (wf_pSignal _ Hwf' _ _ _ HC' HpS) as (T' & HT' & Hin).
    unfold all_disconnected in HT'; simpl in HT'.
    destruct (decide (s' = s)) as [->|].
    + rewrite lookup_alter_eq, HT in HT'. simplify_eq/=.
      rewrite lookup_empty in Hin. by destruct Hin.
    + rewrite lookup_alter_ne in HT' by done. exists T'. by rewrite lookup_delete_ne.
  - apply (wf_set _ Hwf').
  - apply (wf_pSlot _ Hwf').
Qed.

(** ** Every operation keeps the heap well formed *)

Lemma Signal_new_wf h s h' : wf h → Signal_new s h = Some h' → wf h'.
Proof.
  intros Hwf. unfold Signal_new. destruct (signals h !! s) eqn:Hs; [done|].
  intros [= <-]. split; simpl.
  - intros s' T c f [[-> <-]|[Hne Hs']]%lookup_insert_Some; [by rewrite lookup_empty|].
    by apply (wf_table _ Hwf).
  - intros c C s' HC HpS. destruct (wf_pSignal _ Hwf _ _ _ HC HpS) as (T & HT & ?).
    exists T. rewrite lookup_insert_ne; [done|congruence].
  - apply (wf_set _ Hwf).
  - apply (wf_pSlot _ Hwf).
Qed.

Lemma Slot_new_wf h sl h' : wf h → Slot_new sl h = Some h' → wf h'.
Proof.
  intros Hwf. unfold Slot_new. destruct (slots h !! sl) eqn:Hs; [done|].
  intros [= <-]. split; simpl.
  - apply (wf_table _ Hwf).
  - apply (wf_pSignal _ Hwf).
  - intros sl' X c [[-> <-]|[Hne Hs']]%lookup_insert_Some; [set_solver|].
    by apply (wf_set _ Hwf).
  - intros c C sl' HC HpSl HpS. destruct (wf_pSlot _ Hwf _ _ _ HC HpSl HpS) as (X & HX & ?).
    exists X. rewrite lookup_insert_ne; [done|congruence].
Qed.

Lemma Signal_connect_wf h s f c h' : wf h → Signal_connect s f c h = Some h' → wf h'.
Proof.
  intros Hwf Hop. destruct (Signal_connect_eq _ _ _ _ _ Hwf Hop) as (Hc & Hs & ->).
  by apply linked_wf.
Qed.

Lemma Signal_connect_slot_wf h s sl f c h' :
  wf h → Signal_connect_slot s sl f c h = Some h' → wf h'.
Proof.
  intros Hwf Hop. destruct (Signal_connect_slot_eq _ _ _ _ _ _ Hwf Hop) as (Hc & Hs & Hsl & ->).
  apply linked_wf; [done..| |]; intros; by simplify_eq.
Qed.

Lemma Signal_disconnect_Some h s c :
  wf h → is_Some (signals h !! s) → is_Some (Signal_disconnect s c h).
Proof.
  intros Hwf [T HT]. destruct (T !! c) as [f|] eqn:Hf.
  - destruct (Signal_disconnect_wf h s T c f) as (C & _ & _ & ->); eauto.
  - rewrite (Signal_disconnect_absent h s T c); eauto.
Qed.

Lemma Signal_disconnect_keeps_wf h s c h' :
  wf h → Signal_disconnect s c h = Some h' → wf h'.
Proof.
  intros Hwf Hop. destruct (signals h !! s) as [T|] eqn:HT.
  - destruct (T !! c) as [f|] eqn:Hf.
    + destruct (Signal_disconnect_wf h s T c f) as (C & HC & _ & Heq); [done..|].
      rewrite Heq in Hop. simplify_eq. by eapply unlinked_wf.
    + rewrite (Signal_disconnect_absent h s T c) in Hop by done. by simplify_eq.
  - unfold Signal_disconnect in Hop. by rewrite HT in Hop.
Qed.

Lemma Connection_disconnect_Some h c :
  wf h → is_Some (connections h !! c) → is_Some (Connection_disconnect c h).
Proof.
  intros Hwf [C HC]. unfold Connection_disconnect. rewrite HC. simpl.
  destruct (m_pSignal C) as [s|] eqn:HpS; [|eauto].
  destruct (wf_pSignal _ Hwf _ _ _ HC HpS) as (T & HT & _).
  apply Signal_disconnect_Some; eauto.
Qed.

Lemma Connection_disconnect_keeps_wf h c h' :
  wf h → Connection_disconnect c h = Some h' → wf h'.
Proof.
  intros Hwf. unfold Connection_disconnect.
  destruct (connections h !! c) as [C|]; simpl; [|done].
  destruct (m_pSignal C); [by apply Signal_disconnect_keeps_wf|]. by intros [= <-].
Qed.

Lemma Slot_dtor_keeps_wf h sl h' : wf h → Slot_dtor sl h = Some h' → wf h'.
Proof.
  intros Hwf Hop. destruct (slots h !! sl) as [X|] eqn:HX.
  - rewrite (Slot_dtor_wf_eq h sl X) in Hop by done. simplify_eq. by apply Slot_destroyed_wf.
  - unfold Slot_dtor, Slot_dtor_loop in Hop. by rewrite HX in Hop.
Qed.

Lemma Signal_disconnectAll_keeps_wf h s h' :
  wf h → Signal_disconnectAll s h = Some h' → wf h'.
Proof.
  intros Hwf Hop. destruct (signals h !! s) as [T|] eqn:HT.
  - rewrite (Signal_disconnectAll_wf_eq h s T) in Hop by done. simplify_eq.
    by apply all_disconnected_wf.
  - unfold Signal_disconnectAll in Hop. by rewrite HT in Hop.
Qed.

Lemma Signal_dtor_keeps_wf h s h' : wf h → Signal_dtor s h = Some h' → wf h'.
Proof.
  intros Hwf Hop. destruct (signals h !! s) as [T|] eqn:HT.
  - rewrite (Signal_dtor_wf_eq h s T) in Hop by done. simplify_eq.
    by apply Signal_destroyed_wf.
  - unfold Signal_dtor, Signal_disconnectAll in Hop. by rewrite HT in Hop.
Qed.

Lemma step_wf h h' : step h h' → wf h → wf h'.
Proof.
  intros Hstep Hwf.
  destruct Hstep;
    eauto using Signal_new_wf, Slot_new_wf, Signal_connect_wf, Signal_connect_slot_wf,
      Connection_disconnect_keeps_wf, Signal_disconnect_keeps_wf,
      Signal_disconnectAll_keeps_wf, Slot_dtor_keeps_wf, Signal_dtor_keeps_wf.
Qed.

Lemma reachable_wf h : reachable h → wf h.
Proof.
  unfold reachable. intros Hr. apply rtc_nsteps in Hr as [n Hn].
  revert h Hn. induction n as [|n IH]; intros h Hn.
  - inversion Hn; subst. apply wf_empty.
  - apply nsteps_inv_r in Hn as (h1 & Hn & Hstep). eauto using step_wf.
Qed.

(** ** The back-reference invariant on [m_pSlot]

    It is kept by both [connect] overloads, both [disconnect]s and the
    destruction of a slot. *)

Lemma Signal_new_slot_backref_inv h s h' :
  slot_backref_inv h → Signal_new s h = Some h' → slot_backref_inv h'.
Proof.
  unfold Signal_new. destruct (signals h !! s); [done|]. intros Hinv [= <-]. apply Hinv.
Qed.

Lemma Slot_new_slot_backref_inv h sl h' :
  slot_backref_inv h → Slot_new sl h = Some h' → slot_backref_inv h'.
Proof.
  unfold Slot_new. destruct (slots h !! sl) eqn:Hsl; [done|]. intros Hinv [= <-] c sl'. simpl.
  rewrite (Hinv c sl'). destruct (decide (sl' = sl)) as [->|]; [|by rewrite lookup_insert_ne].
  rewrite lookup_insert_eq, Hsl. split; intros (X & ? & ?); simplify_eq. set_solver.
Qed.

Lemma Signal_connect_slot_backref_inv h s f c h' :
  wf h → slot_backref_inv h → Signal_connect s f c h = Some h' → slot_backref_inv h'.
Proof.
  intros Hwf Hinv Hop. destruct (Signal_connect_eq _ _ _ _ _ Hwf Hop) as (Hc & Hs & ->).
  by apply linked_slot_backref_inv.
Qed.

Lemma Signal_connect_slot_slot_backref_inv h s sl f c h' :
  wf h → slot_backref_inv h → Signal_connect_slot s sl f c h = Some h' → slot_backref_inv h'.
Proof.
  intros Hwf Hinv Hop.
  destruct (Signal_connect_slot_eq _ _ _ _ _ _ Hwf Hop) as (Hc & Hs & Hsl & ->).
  apply linked_slot_backref_inv; [done..|]. intros; by simplify_eq.
Qed.

Lemma Signal_disconnect_slot_backref_inv h s c h' :
  wf h → slot_backref_inv h → Signal_disconnect s c h = Some h' → slot_backref_inv h'.
Proof.
  intros Hwf Hinv Hop. destruct (signals h !! s) as [T|] eqn:HT.
  - destruct (T !! c) as [f|] eqn:Hf.
    + destruct (Signal_disconnect_wf h s T c f) as (C & HC & _ & Heq); [done..|].
      rewrite Heq in Hop. simplify_eq. by eapply unlinked_slot_backref_inv.
    + rewrite (Signal_disconnect_absent h s T c) in Hop by done. by simplify_eq.
  - unfold Signal_disconnect in Hop. by rewrite HT in Hop.
Qed.

Lemma Connection_disconnect_slot_backref_inv h c h' :
  wf h → slot_backref_inv h → Connection_disconnect c h = Some h' → slot_backref_inv h'.
Proof.
  intros Hwf Hinv. unfold Connection_disconnect.
  destruct (connections h !! c) as [C|]; simpl; [|done].
  destruct (m_pSignal C); [by apply Signal_disconnect_slot_backref_inv|]. by intros [= <-].
Qed.

Lemma Slot_dtor_slot_backref_inv h sl h' :
  wf h → slot_backref_inv h → Slot_dtor sl h = Some h' → slot_backref_inv h'.
Proof.
  intros Hwf Hinv Hop. destruct (slots h !! sl) as [X|] eqn:HX.
  - rewrite (Slot_dtor_wf_eq h sl X) in Hop by done. simplify_eq.
    by apply Slot_destroyed_slot_backref_inv.
  - unfold Slot_dtor, Slot_dtor_loop in Hop. by rewrite HX in Hop.
Qed.

(** ** Emission *)

Section EmissionProperties.
Context {Args W : Type}.
Variable run : Callable → Args → Heap * W → Outcome (Heap * W).

Lemma invoke_inv f args st o : invoke run f args st = Some o → o = run f args st.
Proof.
  destruct f as [|sl m]; simpl; [congruence|].
  destruct (slots st.1 !! sl); simpl; congruence.
Qed.

Lemma calls_of_after_call {S C} (call : C) (r : Emission S C) :
  calls_of (after_call call r) = call :: calls_of r.
Proof. by destruct r. Qed.

Lemma run_calls_cons c f a calls st st1 :
  ended (run f a st) = Some st1 →
  run_calls run ((c, f, a) :: calls) st = run_calls run calls st1.
Proof. intros H. unfold run_calls. simpl. by rewrite H. Qed.

(** Whatever the listeners do and however the loop ends, the calls it
    made are the first entries still to come, in their order, each with
    the arguments of [emit]. *)
Lemma emit_loop_prefix this T kvs args st r :
  emit_loop run this T kvs args st = Some r →
  calls_of r `prefix_of` (call_of args <$> kvs).
Proof.
  revert st r. induction kvs as [|kv kvs IH]; intros st r; simpl.
  - intros [= <-]. done.
  - destruct (invoke run kv.2 args st) as [[st1|st1|]|]; simpl; [| | |done].
    + destruct (comes_back this T st1).
      * destruct (emit_loop run this T kvs args st1) as [r1|] eqn:Hloop; simpl; [|done].
        intros [= <-]. rewrite calls_of_after_call. apply prefix_cons, (IH _ _ Hloop).
      * intros [= <-]. apply prefix_cons, prefix_nil.
    + destruct (comes_back this T st1); intros [= <-]; apply prefix_cons, prefix_nil.
    + intros [= <-]. apply prefix_cons, prefix_nil.
Qed.

(** A loop that returns has made one call per entry; the state is what
    those calls produce. *)
Lemma emit_loop_Returned this T kvs args st st' calls :
  emit_loop run this T kvs args st = Some (Returned st' calls) →
  calls = call_of args <$> kvs ∧ st' = run_calls run calls st.
Proof.
  revert st st' calls. induction kvs as [|kv kvs IH]; intros st st' calls; simpl.
  - by intros [= <- <-].
  - destruct (invoke run kv.2 args st) as [[st1|st1|]|] eqn:Hinv; simpl; [| | |done].
    + apply invoke_inv in Hinv. destruct (comes_back this T st1); [|done].
      destruct (emit_loop run this T kvs args st1) as [[st2 calls2|st2 calls2|calls2]|]
        eqn:Hloop; simpl; try done.
      intros [= <- <-]. destruct (IH _ _ _ Hloop) as [-> ->]. split; [done|].
      symmetry. apply run_calls_cons. by rewrite <-Hinv.
    + by destruct (comes_back this T st1).
    + done.
Qed.




(** The objects bound in a table of a well-formed heap are alive. *)
Lemma wf_bound_slot_alive h s T c sl m :
  wf h → signals h !! s = Some T → T !! c = Some (Method sl m) →
  ∃ X, slots h !! sl = Some X ∧ c ∈ X.
Proof.
  intros Hwf Hs Hc. destruct (wf_table _ Hwf _ _ _ _ Hs Hc) as (C & HC & HpS & HpSl).
  eapply (wf_pSlot _ Hwf); [done|by eapply HpSl|by rewrite HpS].
Qed.


Lemma Signal_emit_prefix this args st T r :
  signals st.1 !! this = Some T →
  Signal_emit run this args st = Some r →
  calls_of r `prefix_of` (call_of args <$> entries T).
Proof.
  intros HT. unfold Signal_emit. rewrite HT. simpl. apply emit_loop_prefix.
Qed.

Lemma Signal_emit_Returned this args st T st' calls :
  signals st.1 !! this = Some T →
  Signal_emit run this args st = Some (Returned st' calls) →
  calls = call_of args <$> entries T ∧ st' = run_calls run calls st.
Proof.
  intros HT. unfold Signal_emit. rewrite HT. simpl. apply emit_loop_Returned.
Qed.




(** C9. The call operator does what [emit] does: the same calls in the
    same order and the same final state. *)
Theorem Signal_call_is_emit this args st :
  Signal_call run this args st = Signal_emit run this args st.
Proof. reflexivity. Qed.

Lemma emit_loop_frame this T kvs args st :
  (∀ c f a st st', (c, f) ∈ kvs → ended (run f a st) = Some st' → st'.1 = st.1) →
  signals st.1 !! this = Some T →
  (∀ c sl m, (c, Method sl m) ∈ kvs → is_Some (slots st.1 !! sl)) →
  ∃ r, emit_loop run this T kvs args st = Some r ∧
       (∀ st', final_state r = Some st' → st'.1 = st.1) ∧
       ((∀ c f a st, (c, f) ∈ kvs → run f a st ≠ Hangs) → is_Some (final_state r)) ∧
       ((∀ c f a st, (c, f) ∈ kvs → ∃ st', run f a st = Returns st') →
          ∃ st' calls, r = Returned st' calls).
Proof.
  revert st. induction kvs as [|[c f] kvs IH]; intros st Hrun HT Hkvs; simpl.
  { eexists. split; [done|]. split_and!; simpl; [by intros ? [= <-]|eauto..]. }
  assert (invoke run f args st = Some (run f args st)) as ->.
  { destruct f as [|sl m]; [done|]. simpl.
    destruct (Hkvs c sl m) as [X ->]; [set_solver|]. done. }
  simpl. destruct (run f args st) as [st1|st1|] eqn:Hout.
  - assert (st1.1 = st.1) as Hst by (apply (Hrun c f args st); [set_solver|by rewrite Hout]).
    unfold comes_back. rewrite bool_decide_eq_true_2 by (by rewrite Hst).
    destruct (IH st1) as (r & -> & Hfinal & Hends & Hret).
    + intros c' f' a st0 st0' Hin. apply (Hrun c'). set_solver.
    + by rewrite Hst.
    + intros c' sl m Hin. rewrite Hst. apply (Hkvs c' sl m). set_solver.
    + simpl. eexists. split; [done|]. split_and!.
      * intros st'. destruct r; simpl; intros [= <-]; rewrite <-Hst; by apply Hfinal.
      * intros Hno. destruct Hends as [st' Hst']; [intros c' f' a st0 Hin; apply (Hno c'); set_solver|].
        destruct r; simpl in *; eauto.
      * intros Hall. destruct Hret as (st' & calls & ->);
          [intros c' f' a st0 Hin; apply (Hall c'); set_solver|]. simpl. eauto.
  - assert (st1.1 = st.1) as Hst by (apply (Hrun c f args st); [set_solver|by rewrite Hout]).
    unfold comes_back. rewrite bool_decide_eq_true_2 by (by rewrite Hst).
    eexists. split; [done|]. split_and!; simpl.
    + by intros ? [= <-].
    + eauto.
    + intros Hall. destruct (Hall c f args st) as [st' Hst']; [set_solver|]. congruence.
  - eexists. split; [done|]. split_and!; simpl.
    + done.
    + intros Hno. destruct (Hno c f args st); [set_solver|done].
    + intros Hall. destruct (Hall c f args st) as [st' Hst']; [set_solver|]. congruence.
Qed.

(** C10. On a well-formed heap, when the registered callables leave the
    signal/slot machinery alone, [emit] leaves the heap as it found it: the
    same tables with the same callables, the same back-pointers, the same
    count, whether it returns or is left by an exception of a listener.  It
    does end in one of these two ways when no registered callable hangs,
    and it returns when each of them returns. *)
Theorem Signal_emit_frame this args h w T :
  wf h → signals h !! this = Some T →
  (∀ c f a st st', T !! c = Some f → ended (run f a st) = Some st' → st'.1 = st.1) →
  ∃ r,
    Signal_emit run this args (h, w) = Some r ∧
    (∀ st', final_state r = Some st' →
       st'.1 = h ∧ Signal_count this st'.1 = Signal_count this h) ∧
    ((∀ c f a st, T !! c = Some f → run f a st ≠ Hangs) → is_Some (final_state r)) ∧
    ((∀ c f a st, T !! c = Some f → ∃ st', run f a st = Returns st') →
       ∃ st' calls, r = Returned st' calls ∧ st'.1 = h ∧
                    Signal_count this st'.1 = Signal_count this h).
Proof.
  intros Hwf HT Hrun. unfold Signal_emit. simpl. rewrite HT. simpl.
  destruct (emit_loop_frame this T (entries T) args (h, w)) as (r & Hloop & Hfinal & Hends & Hret).
  - intros c f a st st' Hin%elem_of_entries. by apply (Hrun c).
  - done.
  - intros c sl m Hin%elem_of_entries. simpl.
    destruct (wf_bound_slot_alive h this T c sl m) as (X & -> & _); eauto.
  - exists r. split_and!; [done| | |].
    + intros st' Hst'. specialize (Hfinal st' Hst'). simpl in Hfinal. by rewrite Hfinal.
    + intros Hno. apply Hends. intros c f a st Hin%elem_of_entries. by apply (Hno c).
    + intros Hall. destruct Hret as (st' & calls & ->).
      { intros c f a st Hin%elem_of_entries. by apply (Hall c). }
      specialize (Hfinal st' eq_refl). simpl in Hfinal. exists st', calls. by rewrite Hfinal.
Qed.

(** No table holds a method of a destroyed slot. *)
Lemma Slot_destroyed_no_method h sl X s T' c m :
  wf h → slots h !! sl = Some X →
  signals (Slot_destroyed sl X h) !! s = Some T' → T' !! c ≠ Some (Method sl m).
Proof.
  intros Hwf HX HT' Hc. unfold Slot_destroyed in HT'. cbn [signals severed] in HT'.
  rewrite lookup_fmap in HT'. destruct (signals h !! s) as [T|] eqn:HT; simplify_eq/=.
  apply map_lookup_filter_Some in Hc as [Hc Hn]; simpl in Hn.
  destruct (wf_bound_slot_alive h s T c sl m) as (X' & HX' & Hin); [done..|].
  congruence.
Qed.

Lemma size_filter_notin (T : gmap addr Callable) (X : gset addr) :
  size (filter (λ kv : addr * Callable, kv.1 ∉ X) T) + size (X ∩ dom T) = size T.
Proof.
  rewrite <-!size_dom.
  rewrite (dom_filter_L _ T (dom T ∖ (X ∩ dom T))).
  - rewrite size_difference by set_solver.
    assert (size (X ∩ dom T) ≤ size (dom T)) by (apply subseteq_size; set_solver). lia.
  - intros c. rewrite elem_of_difference, elem_of_intersection, elem_of_dom. simpl.
    split; [intros [[f Hf] Hn]; exists f|intros (f & Hf & Hn)]; naive_solver.
Qed.

(** C4, as the code has it.  Destroying, on a well-formed heap, a slot
    object whose set is [X]: the body of the loop nulls the connection's
    [m_pSlot] (and [m_pSignal]) before it calls [disconnect] on the owning
    signal; the loop ends, erases nothing from the set and leaves every
    member with both back-pointers null; once the object is gone the heap
    is well formed, the count of every signal has gone down by the number
    of members of [X] it had in its table, and no later [emit] calls a
    method of the destroyed object. *)
Theorem Slot_dtor_teardown h sl X :
  wf h → slots h !! sl = Some X →
  (∀ h0 c C s, connections h0 !! c = Some C → m_pSignal C = Some s →
     ∃ h2, Slot_dtor_body c h0 = Signal_disconnect s c h2 ∧
           connections h2 !! c = Some (mkConnection None None)) ∧
  (∃ h1, Slot_dtor_loop sl h = Some h1 ∧
     slots h1 !! sl = Some X ∧
     ∀ c, c ∈ X → connections h1 !! c = Some (mkConnection None None)) ∧
  ∃ h', Slot_dtor sl h = Some h' ∧ wf h' ∧ slots h' !! sl = None ∧
    (∀ s T, signals h !! s = Some T →
       ∃ n, Signal_count s h' = Some n ∧ n + size (X ∩ dom T) = size T) ∧
    (∀ s args w r,
       Signal_emit run s args (h', w) = Some r →
       ∀ c f a m, (c, f, a) ∈ calls_of r → f ≠ Method sl m).
Proof.
  intros Hwf HX. split_and!.
  - intros h0 c C s HC HpS. eexists. unfold Slot_dtor_body. rewrite HC; simpl. rewrite HpS.
    split; [done|]. simpl. by rewrite !lookup_alter_eq, HC.
  - exists (severed X h). split_and!; [by apply Slot_dtor_loop_wf|done|].
    intros c Hc. destruct (wf_set _ Hwf _ _ _ HX Hc) as (C & HC & _).
    rewrite lookup_severed_connection, HC. simpl. by rewrite decide_True.
  - exists (Slot_destroyed sl X h).
    split_and!; [by apply Slot_dtor_wf_eq|by apply Slot_destroyed_wf| | |].
    + simpl. apply lookup_delete_eq.
    + intros s T HT. unfold Signal_count, Slot_destroyed. cbn [signals severed].
      rewrite lookup_fmap, HT. simpl. eexists. split; [done|]. apply size_filter_notin.
    + intros s args w r Hemit c f a m Hin ->.
      destruct (signals (Slot_destroyed sl X h) !! s) as [T'|] eqn:HT'.
      * pose proof (Signal_emit_prefix s args (Slot_destroyed sl X h, w) T' r HT' Hemit)
          as [rest Hrest].
        assert ((c, Method sl m, a) ∈ call_of args <$> entries T') as Hin'
          by (rewrite Hrest; set_solver).
        apply list_elem_of_fmap in Hin' as ([c' f'] & Heq & Hin').
        unfold call_of in Heq. simplify_eq/=.
        apply elem_of_entries in Hin'. by eapply Slot_destroyed_no_method.
      * unfold Signal_emit in Hemit. cbn [fst] in Hemit. by rewrite HT' in Hemit.
Qed.
End EmissionProperties.

(** ** Disconnecting one connection *)

Lemma size_delete_registered (T : gmap addr Callable) c f :
  T !! c = Some f → size T = S (size (delete c T)).
Proof.
  intros Hf. rewrite map_size_delete_Some by eauto.
  assert (size T ≠ 0); [|lia]. intros ->%map_size_empty_inv. by rewrite lookup_empty in Hf.
Qed.

(** C5. On a well-formed heap, disconnecting a registered connection
    twice takes the count down by one, not two: the first call removes the entry and nulls
    [m_pSignal], the second finds it null and leaves the heap as it is.
    [Signal::disconnect] called twice does the same. *)
Theorem disconnect_twice_counts_once h s T c f :
  wf h → signals h !! s = Some T → T !! c = Some f →
  ∃ h1 n,
    Signal_count s h = Some (S n) ∧
    Connection_disconnect c h = Some h1 ∧
    (m_pSignal <$> connections h1 !! c) = Some None ∧
    Connection_disconnect c h1 = Some h1 ∧
    Signal_count s h1 = Some n ∧
    Signal_disconnect s c h = Some h1 ∧
    Signal_disconnect s c h1 = Some h1.
Proof.
  intros Hwf HT Hf.
  destruct (Signal_disconnect_wf h s T c f Hwf HT Hf) as (C & HC & HpS & Heq).
  exists (unlinked s c C h), (size (delete c T)).
  assert (signals (unlinked s c C h) !! s = Some (delete c T)) as HT1.
  { simpl. by rewrite lookup_alter_eq, HT. }
  split_and!.
  - unfold Signal_count. rewrite HT. simpl. f_equal. by eapply size_delete_registered.
  - unfold Connection_disconnect. rewrite HC. simpl. by rewrite HpS.
  - simpl. by rewrite lookup_insert_eq.
  - unfold Connection_disconnect. simpl. by rewrite lookup_insert_eq.
  - unfold Signal_count. by rewrite HT1.
  - done.
  - eapply Signal_disconnect_absent; [done|]. apply lookup_delete_eq.
Qed.

(** A handle is not in the table of [s] when it belongs to another
    signal, has been removed already, or was never connected. *)
Lemma wf_not_in_table h s T c :
  wf h → signals h !! s = Some T →
  (∀ C, connections h !! c = Some C → m_pSignal C ≠ Some s) →
  T !! c = None.
Proof.
  intros Hwf HT Hc. destruct (T !! c) as [f|] eqn:Hf; [|done].
  destruct (wf_table _ Hwf _ _ _ _ HT Hf) as (C & HC & HpS & _). by destruct (Hc C HC).
Qed.

(** C6. [Signal::disconnect] with a handle that is not in the table
    returns without a change: same count, same back-pointers, same heap. *)
Theorem Signal_disconnect_not_in_table h s T c :
  signals h !! s = Some T → T !! c = None →
  ∃ h', Signal_disconnect s c h = Some h' ∧
        Signal_count s h' = Signal_count s h ∧
        connections h' !! c = connections h !! c ∧
        h' = h.
Proof.
  intros HT Hc. exists h. by rewrite (Signal_disconnect_absent h s T c).
Qed.

(** On every well-formed heap [Connection::disconnect] ends with the heap
    the contract gives: with a null [m_pSignal] it returns the heap as it
    is; with a non-null one it ends with [m_pSignal] null and the heap that
    snapshot, null, then [Signal::disconnect] produce.  The order of the
    steps inside the call is the subject of [Connection_disconnect_traced]. *)
Theorem Connection_disconnect_meets_contract h c C :
  wf h → connections h !! c = Some C →
  Connection_disconnect c h = Connection_disconnect_contract c h ∧
  (m_pSignal C = None → Connection_disconnect c h = Some h) ∧
  (∀ s, m_pSignal C = Some s →
     ∃ h', Connection_disconnect c h = Some h' ∧
           Signal_disconnect s c h = Some h' ∧
           (m_pSignal <$> connections h' !! c) = Some None).
Proof.
  intros Hwf HC. unfold Connection_disconnect, Connection_disconnect_contract.
  rewrite HC. simpl. destruct (m_pSignal C) as [s|] eqn:HpS; [|by split_and!].
  destruct (wf_pSignal _ Hwf _ _ _ HC HpS) as (T & HT & [f Hf]).
  destruct (Signal_disconnect_wf h s T c f Hwf HT Hf) as (C' & HC' & _ & Heq).
  assert (C' = C) as -> by congruence. split_and!.
  - rewrite Heq.
    rewrite (Signal_disconnect_present _ s T c f (set_pSignal None C)); simpl;
      [|done..|by rewrite lookup_alter_eq, HC|].
    + f_equal. apply heap_eq; simpl; [|done..].
      apply map_eq; intros i. destruct (decide (i = c)) as [->|].
      * by rewrite !lookup_insert_eq.
      * by rewrite !lookup_insert_ne, lookup_alter_ne.
    + intros sl HpSl. by destruct (wf_pSlot _ Hwf c C sl) as (X & -> & _); [..|eauto].
  - done.
  - intros ? [= <-]. exists (unlinked s c C h). split_and!; [done..|].
    simpl. by rewrite lookup_insert_eq.
Qed.

(** ** disconnectAll *)

(** What [disconnectAll] achieves on a well-formed heap: the table is
    empty, every connection that was in it has a null [m_pSignal] and is
    in no slot's set; its [m_pSlot] is what it was. *)
Lemma Signal_disconnectAll_effect h s T :
  wf h → signals h !! s = Some T →
  ∃ h', Signal_disconnectAll s h = Some h' ∧
        Signal_count s h' = Some 0 ∧
        ∀ c C, is_Some (T !! c) → connections h !! c = Some C →
          connections h' !! c = Some (mkConnection None (m_pSlot C)) ∧
          ∀ sl X, slots h' !! sl = Some X → c ∉ X.
Proof.
  intros Hwf HT. exists (all_disconnected s T h).
  split_and!; [by apply Signal_disconnectAll_wf_eq| |].
  - unfold Signal_count. simpl. by rewrite lookup_alter_eq, HT.
  - intros c C Hin%elem_of_dom HC. split.
    + simpl. rewrite map_lookup_imap, HC. simpl. by rewrite decide_True.
    + intros sl X'. simpl. rewrite lookup_fmap.
      destruct (slots h !! sl); intros; simplify_eq/=. set_solver.
Qed.

(** ** The README's programs *)

Lemma demo4_eq : demo4 = Some demo_heap.
Proof. vm_compute. reflexivity. Qed.

Lemma demo_heap_signal : signals demo_heap !! 1%positive = Some demo_table.
Proof. vm_compute. reflexivity. Qed.

Lemma demo_heap_slot : slots demo_heap !! 1%positive = Some {[ 4%positive ]}.
Proof. vm_compute. reflexivity. Qed.

Lemma demo_heap_reachable : reachable demo_heap.
Proof.
  pose proof demo4_eq as H. unfold demo4, demo0 in H.
  apply bind_Some in H as (h2 & H0 & H).
  apply bind_Some in H0 as (h1 & H0 & H1).
  apply bind_Some in H as (h3 & H2 & H).
  apply bind_Some in H as (h4 & H3 & H).
  apply bind_Some in H as (h5 & H4 & H).
  unfold reachable.
  eapply rtc_r; [|by eapply step_connect_slot].
  eapply rtc_r; [|by eapply step_connect].
  eapply rtc_r; [|by eapply step_connect].
  eapply rtc_r; [|by eapply step_connect].
  eapply rtc_r; [|by eapply step_Signal_new].
  eapply rtc_once. by eapply step_Slot_new.
Qed.

Lemma demo_heap_wf : wf demo_heap.
Proof. apply reachable_wf, demo_heap_reachable. Qed.

Lemma demo_heap_slot_backref_inv : slot_backref_inv demo_heap.
Proof.
  pose proof demo4_eq as H. unfold demo4, demo0 in H.
  apply bind_Some in H as (h2 & H0 & H).
  apply bind_Some in H0 as (h1 & H0 & H1).
  apply bind_Some in H as (h3 & H2 & H).
  apply bind_Some in H as (h4 & H3 & H).
  apply bind_Some in H as (h5 & H4 & H).
  pose proof wf_empty as W0. pose proof slot_backref_inv_empty as I0.
  pose proof (Slot_new_wf _ _ _ W0 H0) as W1.
  pose proof (Slot_new_slot_backref_inv _ _ _ I0 H0) as I1.
  pose proof (Signal_new_wf _ _ _ W1 H1) as W2.
  pose proof (Signal_new_slot_backref_inv _ _ _ I1 H1) as I2.
  pose proof (Signal_connect_wf _ _ _ _ _ W2 H2) as W3.
  pose proof (Signal_connect_slot_backref_inv _ _ _ _ _ W2 I2 H2) as I3.
  pose proof (Signal_connect_wf _ _ _ _ _ W3 H3) as W4.
  pose proof (Signal_connect_slot_backref_inv _ _ _ _ _ W3 I3 H3) as I4.
  pose proof (Signal_connect_wf _ _ _ _ _ W4 H4) as W5.
  pose proof (Signal_connect_slot_backref_inv _ _ _ _ _ W4 I4 H4) as I5.
  exact (Signal_connect_slot_slot_backref_inv _ _ _ _ _ _ W5 I5 H).
Qed.

(** ** What the README's last example shows *)

(** C1. [disconnectAll] on the README's heap: the count is 0, the
    connection bound to [foobar] has a null [m_pSignal] and is out of
    [foobar]'s set, but its [m_pSlot] still holds the address of [foobar];
    the destructor of the signal leaves the same record behind. *)
Theorem disconnectAll_leaves_m_pSlot_set :
  ∃ h', Signal_disconnectAll 1 demo_heap = Some h' ∧
        Signal_count 1 h' = Some 0 ∧
        slots h' !! 1%positive = Some ∅ ∧
        connections demo_heap !! 4%positive = Some (mkConnection (Some 1%positive) (Some 1%positive)) ∧
        connections h' !! 4%positive = Some (mkConnection None (Some 1%positive)) ∧
        (h'' ← Signal_dtor 1 demo_heap; connections h'' !! 4%positive) =
          Some (mkConnection None (Some 1%positive)).
Proof. eexists. split; [vm_compute; reflexivity|]. vm_compute. done. Qed.

(** C2. The back-reference invariant holds of the README's heap and is
    lost by [disconnectAll], and by the destructor of the signal: the
    connection bound to [foobar] keeps a non-null [m_pSlot] while it is no
    longer in [foobar]'s set. *)
Theorem disconnectAll_breaks_slot_backref_inv :
  wf demo_heap ∧ slot_backref_inv demo_heap ∧
  (∃ h', Signal_disconnectAll 1 demo_heap = Some h' ∧ ¬ slot_backref_inv h') ∧
  (∃ h', Signal_dtor 1 demo_heap = Some h' ∧ ¬ slot_backref_inv h').
Proof.
  split_and!; [apply demo_heap_wf|apply demo_heap_slot_backref_inv| |].
  - eexists. split; [vm_compute; reflexivity|]. intros Hinv.
    destruct (proj1 (Hinv 4%positive 1%positive)) as (X & HX & Hin);
      [eexists; split; vm_compute; reflexivity|].
    assert (X = ∅) as -> by (apply (inj Some); rewrite <-HX; vm_compute; reflexivity).
    by apply not_elem_of_empty in Hin.
  - eexists. split; [vm_compute; reflexivity|]. intros Hinv.
    destruct (proj1 (Hinv 4%positive 1%positive)) as (X & HX & Hin);
      [eexists; split; vm_compute; reflexivity|].
    assert (X = ∅) as -> by (apply (inj Some); rewrite <-HX; vm_compute; reflexivity).
    by apply not_elem_of_empty in Hin.
Qed.

(** C8. The README's last example: the count is 4 after the four
    [connect]s, 3 after [conn1->disconnect()], 2 after
    [signal.disconnect(conn2)], 1 after [delete foobar] and 0 after
    [disconnectAll()]. *)
Theorem README_connection_counts :
  demo0 ≫= Signal_count 1 = Some 0 ∧
  demo4 ≫= Signal_count 1 = Some 4 ∧
  demo3 ≫= Signal_count 1 = Some 3 ∧
  demo2 ≫= Signal_count 1 = Some 2 ∧
  demo1 ≫= Signal_count 1 = Some 1 ∧
  demo_end ≫= Signal_count 1 = Some 0.
Proof. vm_compute. done. Qed.

(** Each [connect] on a well-formed heap adds one to the count. *)
Lemma Signal_connect_count h s f c h' :
  wf h → Signal_connect s f c h = Some h' →
  Signal_count s h' = S <$> Signal_count s h.
Proof.
  intros Hwf Hop. destruct (Signal_connect_eq _ _ _ _ _ Hwf Hop) as (Hc & [T HT] & ->).
  unfold Signal_count. simpl. rewrite lookup_alter_eq, HT. simpl. f_equal.
  apply map_size_insert_None. by eapply wf_fresh_not_in_table.
Qed.

Lemma Signal_connect_slot_count h s sl f c h' :
  wf h → Signal_connect_slot s sl f c h = Some h' →
  Signal_count s h' = S <$> Signal_count s h.
Proof.
  intros Hwf Hop.
  destruct (Signal_connect_slot_eq _ _ _ _ _ _ Hwf Hop) as (Hc & [T HT] & _ & ->).
  unfold Signal_count. simpl. rewrite lookup_alter_eq, HT. simpl. f_equal.
  apply map_size_insert_None. by eapply wf_fresh_not_in_table.
Qed.

Lemma onMove_heap_wf : wf onMove_heap.
Proof.
  assert (Signal_new 1 empty_heap ≫= Signal_connect 1 0 1 = Some onMove_heap) as H
    by (vm_compute; reflexivity).
  apply bind_Some in H as (h1 & H0 & H1).
  eapply Signal_connect_wf; [|done]. eapply Signal_new_wf; [|done]. apply wf_empty.
Qed.

(** C4, as stated, on the README's heap: after the loop of [~Slot] on
    [foobar] its set still holds the connection it held before. *)
Lemma Slot_dtor_loop_leaves_set :
  slots demo_heap !! 1%positive = Some {[ 4%positive ]} ∧
  ∃ h1, Slot_dtor_loop 1 demo_heap = Some h1 ∧
        slots h1 !! 1%positive = Some {[ 4%positive ]} ∧
        slots h1 !! 1%positive ≠ Some ∅.
Proof.
  split; [exact demo_heap_slot|]. eexists. split; [vm_compute; reflexivity|].
  split; [vm_compute; reflexivity|]. vm_compute. discriminate.
Qed.

Lemma disconnect_twice_counts_once_witness :
  wf demo_heap ∧
  signals demo_heap !! 1%positive = Some demo_table ∧
  demo_table !! 1%positive = Some (Fn 0) ∧
  ∃ h1 n,
    Signal_count 1 demo_heap = Some (S n) ∧
    Connection_disconnect 1 demo_heap = Some h1 ∧
    (m_pSignal <$> connections h1 !! 1%positive) = Some None ∧
    Connection_disconnect 1 h1 = Some h1 ∧
    Signal_count 1 h1 = Some n ∧
    Signal_disconnect 1 1 demo_heap = Some h1 ∧
    Signal_disconnect 1 1 h1 = Some h1.
Proof.
  split; [exact demo_heap_wf|]. split; [exact demo_heap_signal|].
  split; [vm_compute; reflexivity|].
  apply (disconnect_twice_counts_once demo_heap 1 demo_table 1 (Fn 0)).
  - exact demo_heap_wf.
  - exact demo_heap_signal.
  - vm_compute. reflexivity.
Defined.

Lemma Signal_disconnect_not_in_table_witness :
  signals demo_heap !! 1%positive = Some demo_table ∧
  demo_table !! 9%positive = None ∧
  ∃ h', Signal_disconnect 1 9 demo_heap = Some h' ∧
        Signal_count 1 h' = Signal_count 1 demo_heap ∧
        connections h' !! 9%positive = connections demo_heap !! 9%positive ∧
        h' = demo_heap.
Proof.
  split; [exact demo_heap_signal|]. split; [vm_compute; reflexivity|].
  apply (Signal_disconnect_not_in_table demo_heap 1 demo_table 9).
  - exact demo_heap_signal.
  - vm_compute. reflexivity.
Defined.

(** * Further properties *)

(** ** Invariants of every reachable heap *)

(** X1. In every heap a program can reach, a connection's [m_pSignal] is
    the signal [s] exactly when the connection is a key of the table of
    [s]: a registered connection points back at its live signal, and a
    connection that is in no table has a null [m_pSignal]. *)
Theorem reachable_signal_backref_inv h : reachable h → signal_backref_inv h.
Proof.
  intros Hwf%reachable_wf c s. split.
  - intros (C & HC & HpS). by eapply wf_pSignal.
  - intros (T & HT & [f Hf]).
    destruct (wf_table _ Hwf _ _ _ _ HT Hf) as (C & HC & HpS & _). eauto.
Qed.

(** X2. In every reachable heap a connection is a key of at most one
    signal's table. *)
Theorem reachable_connection_in_one_table h s1 s2 T1 T2 c :
  reachable h →
  signals h !! s1 = Some T1 → is_Some (T1 !! c) →
  signals h !! s2 = Some T2 → is_Some (T2 !! c) →
  s1 = s2.
Proof.
  intros Hwf%reachable_wf H1 [f1 Hf1] H2 [f2 Hf2].
  destruct (wf_table _ Hwf _ _ _ _ H1 Hf1) as (C1 & HC1 & HpS1 & _).
  destruct (wf_table _ Hwf _ _ _ _ H2 Hf2) as (C2 & HC2 & HpS2 & _).
  congruence.
Qed.

(** X3. In every reachable heap each member of a slot's set is a live
    connection whose [m_pSlot] is that slot and that is still registered in
    the table of a live signal. *)
Theorem reachable_slot_set_members h sl X c :
  reachable h → slots h !! sl = Some X → c ∈ X →
  ∃ C s T, connections h !! c = Some C ∧ m_pSlot C = Some sl ∧
           m_pSignal C = Some s ∧ signals h !! s = Some T ∧ is_Some (T !! c).
Proof.
  intros Hwf%reachable_wf HX Hc.
  destruct (wf_set _ Hwf _ _ _ HX Hc) as (C & HC & HpSl & [s HpS]).
  destruct (wf_pSignal _ Hwf _ _ _ HC HpS) as (T & HT & Hin).
  by exists C, s, T.
Qed.

(** X4. In every reachable heap a bound method stored in a table belongs
    to a live slot object, whose set holds the connection: no table keeps
    a callable that would call into a destroyed object. *)
Theorem reachable_bound_method_alive h s T c sl m :
  reachable h → signals h !! s = Some T → T !! c = Some (Method sl m) →
  ∃ X C, slots h !! sl = Some X ∧ c ∈ X ∧
         connections h !! c = Some C ∧ m_pSignal C = Some s ∧ m_pSlot C = Some sl.
Proof.
  intros Hwf%reachable_wf HT Hc.
  destruct (wf_table _ Hwf _ _ _ _ HT Hc) as (C & HC & HpS & HpSl).
  destruct (wf_pSlot _ Hwf c C sl) as (X & HX & Hin); [done|by eapply HpSl|by rewrite HpS|].
  exists X, C. split_and!; [done..|]. by eapply HpSl.
Qed.

(** X5. In every reachable heap the operations on live objects run to
    their end: none of them follows a pointer to an object that is gone. *)
Theorem reachable_operations_defined h :
  reachable h →
  (∀ s c, is_Some (signals h !! s) → is_Some (Signal_disconnect s c h)) ∧
  (∀ c, is_Some (connections h !! c) → is_Some (Connection_disconnect c h)) ∧
  (∀ s, is_Some (signals h !! s) → is_Some (Signal_disconnectAll s h)) ∧
  (∀ s, is_Some (signals h !! s) → is_Some (Signal_dtor s h)) ∧
  (∀ sl, is_Some (slots h !! sl) → is_Some (Slot_dtor sl h)).
Proof.
  intros Hwf%reachable_wf. split_and!.
  - intros s c Hs. by apply Signal_disconnect_Some.
  - intros c Hc. by apply Connection_disconnect_Some.
  - intros s [T HT]. rewrite (Signal_disconnectAll_wf_eq h s T); eauto.
  - intros s [T HT]. rewrite (Signal_dtor_wf_eq h s T); eauto.
  - intros sl [X HX]. rewrite (Slot_dtor_wf_eq h sl X); eauto.
Qed.

(** ** Programs that keep the [m_pSlot] invariant *)

Lemma step_keeping_slots_inv h h' :
  step_keeping_slots h h' → wf h ∧ slot_backref_inv h → wf h' ∧ slot_backref_inv h'.
Proof.
  intros Hstep [Hwf Hinv]. destruct Hstep; split;
    eauto using Signal_new_wf, Slot_new_wf, Signal_connect_wf, Signal_connect_slot_wf,
      Connection_disconnect_keeps_wf, Signal_disconnect_keeps_wf, Slot_dtor_keeps_wf,
      Signal_new_slot_backref_inv, Slot_new_slot_backref_inv,
      Signal_connect_slot_backref_inv, Signal_connect_slot_slot_backref_inv,
      Connection_disconnect_slot_backref_inv, Signal_disconnect_slot_backref_inv,
      Slot_dtor_slot_backref_inv.
Qed.

(** X6. In every heap reached by a program that never calls
    [disconnectAll] and never destroys a signal, a connection's [m_pSlot]
    is the slot [sl] exactly when the connection is in the set of [sl]. *)
Theorem keeping_slots_slot_backref_inv h :
  rtc step_keeping_slots empty_heap h → slot_backref_inv h.
Proof.
  intros Hr. apply rtc_nsteps in Hr as [n Hn].
  cut (wf h ∧ slot_backref_inv h); [by intros [_ ?]|].
  revert h Hn. induction n as [|n IH]; intros h Hn.
  - inversion Hn; subst. split; [apply wf_empty|apply slot_backref_inv_empty].
  - apply nsteps_inv_r in Hn as (h1 & Hn & Hstep). eauto using step_keeping_slots_inv.
Qed.
(** ** connect *)

(** X7. [connect(function)] on a live signal with a fresh connection
    address returns; the table gains exactly the entry of the new
    connection, so the count goes up by one; the new connection points at
    the signal and at no slot; no other connection, no slot's set and no
    other signal changes. *)
Theorem Signal_connect_registers h s T f c :
  wf h → signals h !! s = Some T → connections h !! c = None →
  ∃ h', Signal_connect s f c h = Some h' ∧
        signals h' !! s = Some (<[c:=Fn f]> T) ∧
        T !! c = None ∧
        Signal_count s h' = Some (S (size T)) ∧
        connections h' !! c = Some (mkConnection (Some s) None) ∧
        slots h' = slots h ∧
        (∀ s', s' ≠ s → signals h' !! s' = signals h !! s') ∧
        (∀ c', c' ≠ c → connections h' !! c' = connections h !! c').
Proof.
  intros Hwf HT Hc.
  destruct (Signal_connect_Some h s f c) as [h' Hop]; [eauto|done|].
  destruct (Signal_connect_eq _ _ _ _ _ Hwf Hop) as (_ & _ & ->).
  pose proof (wf_fresh_not_in_table h s T c Hwf HT Hc) as Hfresh.
  exists (linked s c (Fn f) None h). split_and!; [done| |done| |..]; simpl.
  - by rewrite lookup_alter_eq, HT.
  - unfold Signal_count. simpl. rewrite lookup_alter_eq, HT. simpl.
    by rewrite map_size_insert_None.
  - by rewrite lookup_insert_eq.
  - done.
  - intros s' Hne. by rewrite lookup_alter_ne.
  - intros c' Hne. by rewrite lookup_insert_ne.
Qed.

(** X8. [connect(slot, function)] on a live signal and a live slot object
    with a fresh connection address returns; the table gains exactly the
    entry of the new connection, bound to the method of that object, so the
    count goes up by one; the slot's set gains exactly the new connection,
    which points at the signal and at the slot; nothing else changes. *)
Theorem Signal_connect_slot_registers h s T sl X f c :
  wf h → signals h !! s = Some T → slots h !! sl = Some X →
  connections h !! c = None →
  ∃ h', Signal_connect_slot s sl f c h = Some h' ∧
        signals h' !! s = Some (<[c:=Method sl f]> T) ∧
        T !! c = None ∧
        Signal_count s h' = Some (S (size T)) ∧
        connections h' !! c = Some (mkConnection (Some s) (Some sl)) ∧
        slots h' !! sl = Some ({[c]} ∪ X) ∧
        (c ∉ X) ∧
        (∀ s', s' ≠ s → signals h' !! s' = signals h !! s') ∧
        (∀ sl', sl' ≠ sl → slots h' !! sl' = slots h !! sl') ∧
        (∀ c', c' ≠ c → connections h' !! c' = connections h !! c').
Proof.
  intros Hwf HT HX Hc.
  destruct (Signal_connect_slot_Some h s sl f c) as [h' Hop]; [eauto..|done|].
  destruct (Signal_connect_slot_eq _ _ _ _ _ _ Hwf Hop) as (_ & _ & _ & ->).
  pose proof (wf_fresh_not_in_table h s T c Hwf HT Hc) as Hfresh.
  exists (linked s c (Method sl f) (Some sl) h). split_and!; [done| |done| |..]; simpl.
  - by rewrite lookup_alter_eq, HT.
  - unfold Signal_count. simpl. rewrite lookup_alter_eq, HT. simpl.
    by rewrite map_size_insert_None.
  - by rewrite lookup_insert_eq.
  - by rewrite lookup_alter_eq, HX.
  - intros Hin. destruct (wf_set _ Hwf _ _ _ HX Hin) as (? & ? & _). congruence.
  - intros s' Hne. by rewrite lookup_alter_ne.
  - intros sl' Hne. by rewrite lookup_alter_ne.
  - intros c' Hne. by rewrite lookup_insert_ne.
Qed.

Lemma connect_listener_wf h s lc h' : wf h → connect_listener s lc h = Some h' → wf h'.
Proof.
  unfold connect_listener. destruct lc.1; eauto using Signal_connect_wf, Signal_connect_slot_wf.
Qed.

Lemma connect_listener_step h s T g c :
  wf h → signals h !! s = Some T → connections h !! c = None →
  (∀ sl m, g = Method sl m → is_Some (slots h !! sl)) →
  ∃ h', connect_listener s (g, c) h = Some h' ∧
        signals h' !! s = Some (<[c:=g]> T) ∧ T !! c = None ∧
        (∀ c', c' ≠ c → connections h' !! c' = connections h !! c') ∧
        (∀ sl, is_Some (slots h !! sl) → is_Some (slots h' !! sl)).
Proof.
  intros Hwf HT Hc Hg. unfold connect_listener. simpl.
  pose proof (wf_fresh_not_in_table h s T c Hwf HT Hc) as Hfresh.
  destruct g as [f|sl f].
  - destruct (Signal_connect_Some h s f c) as [h' Hop]; [eauto|done|].
    destruct (Signal_connect_eq _ _ _ _ _ Hwf Hop) as (_ & _ & Heq).
    exists h'. subst h'. split_and!; [done| |done|..]; simpl.
    + by rewrite lookup_alter_eq, HT.
    + intros c' Hne. by rewrite lookup_insert_ne.
    + done.
  - destruct (Signal_connect_slot_Some h s sl f c) as [h' Hop]; [eauto..|done|].
    destruct (Signal_connect_slot_eq _ _ _ _ _ _ Hwf Hop) as (_ & _ & _ & Heq).
    exists h'. subst h'. split_and!; [done| |done|..]; simpl.
    + by rewrite lookup_alter_eq, HT.
    + intros c' Hne. by rewrite lookup_insert_ne.
    + intros sl' [X' HX']. destruct (decide (sl' = sl)) as [->|].
      * rewrite lookup_alter_eq, HX'. simpl. eauto.
      * rewrite lookup_alter_ne by done. eauto.
Qed.

Lemma connect_listeners_table h s T l :
  wf h → signals h !! s = Some T → NoDup l.*2 →
  (∀ c, c ∈ l.*2 → connections h !! c = None) →
  (∀ c sl m, (Method sl m, c) ∈ l → is_Some (slots h !! sl)) →
  ∃ h' T', for_each (connect_listener s) l h = Some h' ∧
           signals h' !! s = Some T' ∧ size T' = size T + length l ∧
           (∀ c g, T' !! c = Some g ↔ T !! c = Some g ∨ (g, c) ∈ l).
Proof.
  revert h T. induction l as [|[g c] l IH]; intros h T Hwf HT Hnd Hfresh Hslots; simpl.
  - exists h, T. split_and!; [done..|lia|]. intros c g. set_solver.
  - simpl in Hnd. apply NoDup_cons in Hnd as [Hc Hnd].
    destruct (connect_listener_step h s T g c) as (h1 & Hop & HT1 & HTc & Hconn & Hsl);
      [done..|apply Hfresh; set_solver|intros sl m ->; apply (Hslots c sl m); set_solver|].
    rewrite Hop. simpl.
    destruct (IH h1 (<[c:=g]> T)) as (h' & T' & Hloop & HT' & Hsize & Hin).
    + by eapply connect_listener_wf.
    + done.
    + done.
    + intros c' Hc'. rewrite Hconn; [apply Hfresh; set_solver|]. intros ->. done.
    + intros c' sl m Hin. apply Hsl, (Hslots c' sl m). set_solver.
    + exists h', T'. split_and!; [done..| |].
      * rewrite Hsize, map_size_insert_None by done. lia.
      * intros c' g'. rewrite Hin. rewrite lookup_insert_Some.
        split.
        -- intros [[[-> ->]|[? ?]]|?]; [right|left|right]; set_solver.
        -- intros [?|[[= -> ->]|?]%elem_of_cons]; [|by left; left|by right].
           left. right. split; [|done]. intros ->. congruence.
Qed.

(** X9. Connecting the listeners of a list, callables and bound methods
    of live slot objects alike, one after the other to a signal whose table
    is empty, each at a fresh address, gives a count equal to the length of
    the list, and the table then holds exactly those listeners. *)
Theorem connect_listeners_count h s l :
  wf h → signals h !! s = Some ∅ → NoDup l.*2 →
  (∀ c, c ∈ l.*2 → connections h !! c = None) →
  (∀ c sl m, (Method sl m, c) ∈ l → is_Some (slots h !! sl)) →
  ∃ h' T', for_each (connect_listener s) l h = Some h' ∧
           signals h' !! s = Some T' ∧
           Signal_count s h' = Some (length l) ∧
           (∀ c g, T' !! c = Some g ↔ (g, c) ∈ l).
Proof.
  intros Hwf HT Hnd Hfresh Hslots.
  destruct (connect_listeners_table h s ∅ l) as (h' & T' & Hloop & HT' & Hsize & Hin); [done..|].
  exists h', T'. split_and!; [done..| |].
  - unfold Signal_count. rewrite HT'. simpl. rewrite Hsize, map_size_empty. done.
  - intros c g. rewrite Hin, lookup_empty. naive_solver.
Qed.

(** ** connect, then disconnect *)

(** X10. [connect(function)] followed by [disconnect] of the connection
    it returned gives back every table and every slot's set as they were
    before; only the record of the spent connection, with both back-pointers
    null, is left behind. *)
Theorem connect_disconnect_round_trip h s f c h1 :
  wf h → Signal_connect s f c h = Some h1 →
  ∃ h2, Signal_disconnect s c h1 = Some h2 ∧
        Connection_disconnect c h1 = Some h2 ∧
        signals h2 = signals h ∧ slots h2 = slots h ∧
        connections h2 = <[c:=mkConnection None None]> (connections h).
Proof.
  intros Hwf Hop. pose proof (Signal_connect_wf _ _ _ _ _ Hwf Hop) as Hwf1.
  destruct (Signal_connect_eq _ _ _ _ _ Hwf Hop) as (Hc & [T HT] & ->).
  pose proof (wf_fresh_not_in_table h s T c Hwf HT Hc) as Hfresh.
  destruct (Signal_disconnect_wf (linked s c (Fn f) None h) s (<[c:=Fn f]> T) c (Fn f))
    as (C & HC & _ & Heq); [done|simpl; by rewrite lookup_alter_eq, HT|by rewrite lookup_insert_eq|].
  simpl in HC. rewrite lookup_insert_eq in HC. simplify_eq.
  eexists. split_and!; [done| |..]; simpl.
  - unfold Connection_disconnect. simpl. by rewrite lookup_insert_eq.
  - apply map_eq; intros s'. destruct (decide (s' = s)) as [->|].
    + rewrite !lookup_alter_eq, HT. simpl. by rewrite delete_insert_id.
    + by rewrite !lookup_alter_ne.
  - done.
  - by rewrite insert_insert_eq.
Qed.

(** X11. [connect(slot, function)] followed by [disconnect] of the
    connection it returned gives back every table and every slot's set,
    the set of the target slot included, as they were before; only the
    record of the spent connection, with both back-pointers null, is left
    behind. *)
Theorem connect_slot_disconnect_round_trip h s sl f c h1 :
  wf h → Signal_connect_slot s sl f c h = Some h1 →
  ∃ h2, Signal_disconnect s c h1 = Some h2 ∧
        Connection_disconnect c h1 = Some h2 ∧
        signals h2 = signals h ∧ slots h2 = slots h ∧
        connections h2 = <[c:=mkConnection None None]> (connections h).
Proof.
  intros Hwf Hop. pose proof (Signal_connect_slot_wf _ _ _ _ _ _ Hwf Hop) as Hwf1.
  destruct (Signal_connect_slot_eq _ _ _ _ _ _ Hwf Hop) as (Hc & [T HT] & [X HX] & ->).
  pose proof (wf_fresh_not_in_table h s T c Hwf HT Hc) as Hfresh.
  destruct (Signal_disconnect_wf (linked s c (Method sl f) (Some sl) h) s
              (<[c:=Method sl f]> T) c (Method sl f))
    as (C & HC & _ & Heq); [done|simpl; by rewrite lookup_alter_eq, HT|by rewrite lookup_insert_eq|].
  simpl in HC. rewrite lookup_insert_eq in HC. simplify_eq.
  eexists. split_and!; [done| |..]; simpl.
  - unfold Connection_disconnect. simpl. by rewrite lookup_insert_eq.
  - apply map_eq; intros s'. destruct (decide (s' = s)) as [->|].
    + rewrite !lookup_alter_eq, HT. simpl. by rewrite delete_insert_id.
    + by rewrite !lookup_alter_ne.
  - apply map_eq; intros sl'. destruct (decide (sl' = sl)) as [->|].
    + rewrite !lookup_alter_eq, HX. simpl. f_equal.
      assert (c ∉ X); [|set_solver].
      intros Hin. destruct (wf_set _ Hwf _ _ _ HX Hin) as (? & ? & _). congruence.
    + by rewrite !lookup_alter_ne.
  - by rewrite insert_insert_eq.
Qed.

(** ** What disconnect leaves alone *)

(** X12. [Signal::disconnect] on signal [s] with connection [c] touches
    nothing but [c]: the table of [s] loses at most the key [c], no other
    signal's table changes, no other connection's record changes, and no
    slot's set loses anything but [c]. *)
Theorem Signal_disconnect_frame h s T c h' :
  wf h → signals h !! s = Some T → Signal_disconnect s c h = Some h' →
  signals h' !! s = Some (delete c T) ∧
  (∀ s', s' ≠ s → signals h' !! s' = signals h !! s') ∧
  (∀ c', c' ≠ c → connections h' !! c' = connections h !! c') ∧
  (∀ sl X, slots h !! sl = Some X →
     ∃ X', slots h' !! sl = Some X' ∧ X ∖ {[c]} ⊆ X' ∧ X' ⊆ X).
Proof.
  intros Hwf HT Hop. destruct (T !! c) as [f|] eqn:Hf.
  - destruct (Signal_disconnect_wf h s T c f) as (C & HC & _ & Heq); [done..|].
    rewrite Heq in Hop. simplify_eq. split_and!; simpl.
    + by rewrite lookup_alter_eq, HT.
    + intros s' Hne. by rewrite lookup_alter_ne.
    + intros c' Hne. by rewrite lookup_insert_ne.
    + intros sl X HX. destruct (m_pSlot C) as [sl0|]; [|exists X; set_solver].
      destruct (decide (sl = sl0)) as [->|].
      * rewrite lookup_alter_eq, HX. simpl. eexists. split; [done|]. set_solver.
      * rewrite lookup_alter_ne by done. exists X. set_solver.
  - rewrite (Signal_disconnect_absent h s T c) in Hop by done. simplify_eq.
    split_and!; [by rewrite delete_id|done..|].
    intros sl X HX. exists X. set_solver.
Qed.

(** ** Destruction *)

(** X13. Destroying a slot object takes out of every signal's table
    exactly the entries of the connections in the object's set: all other
    entries stay, with their callables; the records of all other
    connections and the sets of all other slot objects are unchanged. *)
Theorem Slot_dtor_frame h sl X :
  wf h → slots h !! sl = Some X →
  ∃ h', Slot_dtor sl h = Some h' ∧
        (∀ s T, signals h !! s = Some T →
           ∃ T', signals h' !! s = Some T' ∧
                 ∀ c g, T' !! c = Some g ↔ T !! c = Some g ∧ c ∉ X) ∧
        (∀ s, signals h !! s = None → signals h' !! s = None) ∧
        (∀ c, c ∉ X → connections h' !! c = connections h !! c) ∧
        (∀ sl', sl' ≠ sl → slots h' !! sl' = slots h !! sl').
Proof.
  intros Hwf HX. exists (Slot_destroyed sl X h).
  split_and!; [by apply Slot_dtor_wf_eq|..]; unfold Slot_destroyed; cbn [signals slots connections severed].
  - intros s T HT. rewrite lookup_fmap, HT. simpl. eexists. split; [done|].
    intros c g. by rewrite map_lookup_filter_Some.
  - intros s Hs. by rewrite lookup_fmap, Hs.
  - intros c Hc. rewrite map_lookup_imap. destruct (connections h !! c); simpl; [|done].
    by rewrite decide_False.
  - intros sl' Hne. by rewrite lookup_delete_ne.
Qed.

(** X14. Destroying a signal removes it from the heap, takes its
    connections, and only those, out of every slot's set and nulls their
    [m_pSignal]; the tables of the other signals and the records of the
    connections of other signals are unchanged, and the heap stays well
    formed. *)
Theorem Signal_dtor_effect h s T :
  wf h → signals h !! s = Some T →
  ∃ h', Signal_dtor s h = Some h' ∧ wf h' ∧
        signals h' !! s = None ∧
        (∀ s', s' ≠ s → signals h' !! s' = signals h !! s') ∧
        (∀ sl X, slots h !! sl = Some X → slots h' !! sl = Some (X ∖ dom T)) ∧
        (∀ c C, is_Some (T !! c) → connections h !! c = Some C →
           connections h' !! c = Some (mkConnection None (m_pSlot C))) ∧
        (∀ c, T !! c = None → connections h' !! c = connections h !! c).
Proof.
  intros Hwf HT. exists (Signal_destroyed s T h).
  split_and!; [by apply Signal_dtor_wf_eq|by apply Signal_destroyed_wf|..];
    unfold Signal_destroyed; cbn [signals slots connections cut].
  - apply lookup_delete_eq.
  - intros s' Hne. by rewrite lookup_delete_ne.
  - intros sl X HX. by rewrite lookup_fmap, HX.
  - intros c C Hin%elem_of_dom HC. rewrite map_lookup_imap, HC. simpl.
    by rewrite decide_True.
  - intros c Hc%not_elem_of_dom. rewrite map_lookup_imap.
    destruct (connections h !! c); simpl; [|done]. by rewrite decide_False.
Qed.

(** X15. A handle that outlives its signal is inert: after the signal is
    destroyed, [Connection::disconnect] on any of its connections, and
    [Signal::disconnect] with it on any signal still alive, return without
    changing the heap. *)
Theorem Connection_inert_after_Signal_dtor h s T c :
  wf h → signals h !! s = Some T → is_Some (T !! c) →
  ∃ h', Signal_dtor s h = Some h' ∧
        Connection_disconnect c h' = Some h' ∧
        ∀ s', is_Some (signals h' !! s') → Signal_disconnect s' c h' = Some h'.
Proof.
  intros Hwf HT [f Hf]. exists (Signal_destroyed s T h).
  destruct (wf_table _ Hwf _ _ _ _ HT Hf) as (C & HC & _).
  assert (connections (Signal_destroyed s T h) !! c = Some (mkConnection None (m_pSlot C))) as HC'.
  { unfold Signal_destroyed; cbn [connections cut]. rewrite map_lookup_imap, HC. simpl.
    rewrite decide_True; [done|]. apply elem_of_dom. eauto. }
  split_and!; [by apply Signal_dtor_wf_eq| |].
  - unfold Connection_disconnect. by rewrite HC'.
  - intros s' [T' HT']. eapply Signal_disconnect_absent; [done|].
    eapply wf_not_in_table; [by apply Signal_destroyed_wf|done|].
    intros C1 HC1. rewrite HC' in HC1. by simplify_eq.
Qed.

(** X16. A handle that outlives its slot object is inert: after the
    object is destroyed, each connection of its set has both back-pointers
    null, and [Connection::disconnect] on it, and [Signal::disconnect] with
    it on any live signal, return without changing the heap. *)
Theorem Connection_inert_after_Slot_dtor h sl X c :
  wf h → slots h !! sl = Some X → c ∈ X →
  ∃ h', Slot_dtor sl h = Some h' ∧
        connections h' !! c = Some (mkConnection None None) ∧
        Connection_disconnect c h' = Some h' ∧
        ∀ s', is_Some (signals h' !! s') → Signal_disconnect s' c h' = Some h'.
Proof.
  intros Hwf HX Hc. exists (Slot_destroyed sl X h).
  destruct (wf_set _ Hwf _ _ _ HX Hc) as (C & HC & _).
  assert (connections (Slot_destroyed sl X h) !! c = Some (mkConnection None None)) as HC'.
  { change (connections (Slot_destroyed sl X h)) with (connections (severed X h)).
    rewrite lookup_severed_connection, HC. simpl. by rewrite decide_True. }
  split_and!; [by apply Slot_dtor_wf_eq|done| |].
  - unfold Connection_disconnect. by rewrite HC'.
  - intros s' [T' HT']. eapply Signal_disconnect_absent; [done|].
    eapply wf_not_in_table; [by apply Slot_destroyed_wf|done|].
    intros C1 HC1. rewrite HC' in HC1. by simplify_eq.
Qed.

(** ** disconnectAll *)

Lemma entries_empty : entries ∅ = [].
Proof.
  apply Permutation_nil_r. by rewrite entries_Permutation, map_to_list_empty.
Qed.

(** X17. [disconnectAll] is idempotent: a second call finds the table
    empty and returns the heap as it is. *)
Theorem Signal_disconnectAll_twice h s h1 :
  wf h → Signal_disconnectAll s h = Some h1 →
  Signal_disconnectAll s h1 = Some h1 ∧ Signal_count s h1 = Some 0.
Proof.
  intros Hwf Hop. destruct (signals h !! s) as [T|] eqn:HT.
  - rewrite (Signal_disconnectAll_wf_eq h s T) in Hop by done. simplify_eq.
    assert (signals (all_disconnected s T h) !! s = Some ∅) as Hempty.
    { simpl. by rewrite lookup_alter_eq, HT. }
    split; [|unfold Signal_count; by rewrite Hempty].
    unfold Signal_disconnectAll. rewrite Hempty. simpl. rewrite entries_empty. simpl.
    f_equal. apply heap_eq; [done..|]. simpl.
    apply map_eq; intros s'. destruct (decide (s' = s)) as [->|].
    + by rewrite !lookup_alter_eq, HT.
    + by rewrite !lookup_alter_ne.
  - unfold Signal_disconnectAll in Hop. by rewrite HT in Hop.
Qed.

Lemma each_disconnected_empty s h : each_disconnected s ∅ h = h.
Proof.
  apply heap_eq; simpl.
  - apply map_eq; intros c. rewrite map_lookup_imap.
    destruct (connections h !! c); simpl; [|done]. by rewrite decide_False by set_solver.
  - apply map_eq; intros sl. rewrite lookup_fmap.
    destruct (slots h !! sl); simpl; [|done]. f_equal. set_solver.
  - apply map_eq; intros s'. destruct (decide (s' = s)) as [->|]; [|by rewrite lookup_alter_ne].
    rewrite lookup_alter_eq. destruct (signals h !! s); simpl; [|done].
    f_equal. apply filter_notin_empty.
Qed.

Lemma Signal_disconnect_each_disconnected h s T D c f :
  wf h → signals h !! s = Some T → T !! c = Some f → c ∉ D →
  Signal_disconnect s c (each_disconnected s D h) = Some (each_disconnected s (D ∪ {[c]}) h).
Proof.
  intros Hwf HT Hf HD.
  destruct (wf_table _ Hwf _ _ _ _ HT Hf) as (C & HC & HpS & _).
  assert (∀ sl X, slots h !! sl = Some X → m_pSlot C ≠ Some sl → X ∖ D = X ∖ (D ∪ {[c]})) as Hother.
  { intros sl X HX Hne. assert (c ∉ X); [|set_solver].
    intros Hin. destruct (wf_set _ Hwf _ _ _ HX Hin) as (? & ? & ? & _). congruence. }
  rewrite (Signal_disconnect_present _ s (filter (λ kv, kv.1 ∉ D) T) c f C).
  - f_equal. apply heap_eq; simpl.
    + apply map_eq; intros i. rewrite map_lookup_imap.
      destruct (decide (i = c)) as [->|].
      * rewrite lookup_insert_eq, HC. simpl. by rewrite decide_True by set_solver.
      * rewrite lookup_insert_ne, map_lookup_imap by done.
        destruct (connections h !! i); simpl; [|done]. f_equal.
        destruct (decide (i ∈ D)); [by rewrite decide_True by set_solver|].
        by rewrite decide_False by set_solver.
    + destruct (m_pSlot C) as [sl|] eqn:HpSl.
      * apply map_eq; intros sl'. rewrite lookup_fmap.
        destruct (decide (sl' = sl)) as [->|].
        -- rewrite lookup_alter_eq, lookup_fmap.
           destruct (slots h !! sl); simpl; [|done]. f_equal. set_solver.
        -- rewrite lookup_alter_ne, lookup_fmap by done.
           destruct (slots h !! sl') as [X'|] eqn:HX'; simpl; [|done]. f_equal.
           apply (Hother sl'); [done|congruence].
      * apply map_eq; intros sl'. rewrite !lookup_fmap.
        destruct (slots h !! sl') as [X'|] eqn:HX'; simpl; [|done]. f_equal.
        by apply (Hother sl').
    + apply map_eq; intros s'. destruct (decide (s' = s)) as [->|].
      * rewrite !lookup_alter_eq, HT. simpl. f_equal.
        symmetry. apply filter_notin_union_singleton.
      * by rewrite !lookup_alter_ne.
  - simpl. by rewrite lookup_alter_eq, HT.
  - by apply map_lookup_filter_Some.
  - simpl. rewrite map_lookup_imap, HC. simpl. by rewrite decide_False.
  - intros sl HpSl. simpl. rewrite lookup_fmap.
    destruct (wf_pSlot _ Hwf c C sl) as (X & -> & _); [done..|by rewrite HpS|]. simpl. eauto.
Qed.

Lemma for_each_Signal_disconnect h s T l D :
  wf h → signals h !! s = Some T → NoDup l →
  (∀ c, c ∈ l → (c ∉ D) ∧ is_Some (T !! c)) →
  for_each (Signal_disconnect s) l (each_disconnected s D h) =
    Some (each_disconnected s (D ∪ list_to_set l) h).
Proof.
  intros Hwf HT. revert D. induction l as [|c l IH]; intros D Hnd Hl; simpl.
  - by rewrite union_empty_r_L.
  - apply NoDup_cons in Hnd as [Hc Hnd].
    destruct (Hl c) as (HD & [f Hf]); [set_solver|].
    rewrite (Signal_disconnect_each_disconnected h s T D c f) by done. simpl.
    rewrite IH; [f_equal; f_equal; set_solver|done|].
    intros c' Hc'. destruct (Hl c') as (? & ?); [set_solver|]. split; [set_solver|done].
Qed.

(** X18. [disconnectAll] compared with [Signal::disconnect] called on
    each connection of the table in turn: both run to their end and leave
    the same tables, the same slots' sets and the same [m_pSignal] in every
    connection; calling [disconnect] on each also leaves every [m_pSlot] of
    a connection of the table null, and the connections outside the table
    are equal in both. *)
Theorem disconnectAll_vs_disconnect_each h s T :
  wf h → signals h !! s = Some T →
  ∃ h1 h2,
    Signal_disconnectAll s h = Some h1 ∧
    for_each (Signal_disconnect s) (entries T).*1 h = Some h2 ∧
    signals h1 = signals h2 ∧ slots h1 = slots h2 ∧
    (∀ c, m_pSignal <$> connections h1 !! c = m_pSignal <$> connections h2 !! c) ∧
    (∀ c, T !! c = None → connections h1 !! c = connections h2 !! c) ∧
    (∀ c, is_Some (T !! c) → connections h2 !! c = Some (mkConnection None None)).
Proof.
  intros Hwf HT. exists (all_disconnected s T h), (each_disconnected s (dom T) h).
  split_and!.
  - by apply Signal_disconnectAll_wf_eq.
  - rewrite <-(each_disconnected_empty s h) at 1.
    rewrite (for_each_Signal_disconnect h s T); [|done..|apply NoDup_entries_keys|].
    + by rewrite union_empty_l_L, list_to_set_entries_keys.
    + intros c Hc%elem_of_entries_keys. split; [set_solver|done].
  - simpl. apply map_eq; intros s'. destruct (decide (s' = s)) as [->|].
    + rewrite !lookup_alter_eq, HT. simpl. f_equal. symmetry.
      apply map_eq; intros c. rewrite lookup_empty. apply map_lookup_filter_None.
      destruct (T !! c) eqn:Hc; [right|by left]. intros ? _. simpl.
      intros Hn. apply Hn, elem_of_dom. eauto.
    + by rewrite !lookup_alter_ne.
  - done.
  - intros c. simpl. rewrite !map_lookup_imap.
    destruct (connections h !! c); simpl; [|done]. by destruct (decide (c ∈ dom T)).
  - intros c Hc%not_elem_of_dom. simpl. rewrite !map_lookup_imap.
    destruct (connections h !! c); simpl; [|done]. by rewrite !decide_False.
  - intros c [f Hf]. simpl. rewrite map_lookup_imap.
    destruct (wf_table _ Hwf _ _ _ _ HT Hf) as (C & -> & _). simpl.
    rewrite decide_True; [done|]. apply elem_of_dom. eauto.
Qed.

(** ** Emission after disconnection *)

Lemma StronglySorted_le_NoDup_lt (l : list addr) :
  StronglySorted Pos.le l → NoDup l → StronglySorted Pos.lt l.
Proof.
  induction 1 as [|x l Hl IH Hall]; intros Hnd; [constructor|].
  apply NoDup_cons in Hnd as [Hx Hnd]. constructor; [by apply IH|].
  rewrite Forall_forall in Hall |- *. intros y Hy.
  specialize (Hall y Hy). assert (x ≠ y) by (intros ->; done). lia.
Qed.

Lemma entries_keys_ascending (T : gmap addr Callable) :
  StronglySorted Pos.lt (entries T).*1.
Proof.
  apply StronglySorted_le_NoDup_lt; [|apply NoDup_entries_keys].
  apply (StronglySorted_fmap fst key_le Pos.le); [done|].
  apply Sorted_StronglySorted; [|apply entries_Sorted].
  intros x y z. unfold key_le. lia.
Qed.

Section EmissionAfterDisconnection.
Context {Args W : Type}.
Variable run : Callable → Args → Heap * W → Outcome (Heap * W).

Lemma call_of_keys (args : Args) (l : list (addr * Callable)) :
  (call_of args <$> l).*1.*1 = l.*1.
Proof. induction l as [|[c g] l IH]; [done|]. csimpl. by rewrite IH. Qed.

(** X19. Whatever the listeners do and however [emit] ends, it has
    called the connections in strictly ascending order of their addresses
    (the order of the keys of the [std::map], whatever the order of the
    [connect]s); an [emit] that returns has made as many calls as
    [count()] gave before it. *)
Theorem Signal_emit_in_address_order this args st r :
  Signal_emit run this args st = Some r →
  StronglySorted Pos.lt (calls_of r).*1.*1 ∧
  ∀ st' calls, r = Returned st' calls →
    Signal_count this st.1 = Some (length calls).
Proof.
  intros Hemit. destruct (signals st.1 !! this) as [T|] eqn:HT.
  - split.
    + destruct (Signal_emit_prefix run this args st T r HT Hemit) as [rest Hrest].
      pose proof (entries_keys_ascending T) as Hsorted.
      rewrite <-(call_of_keys args), Hrest, !fmap_app in Hsorted.
      by apply StronglySorted_app_1_l in Hsorted.
    + intros st' calls ->.
      destruct (Signal_emit_Returned run this args st T st' calls HT Hemit) as [-> _].
      unfold Signal_count. rewrite HT. simpl. by rewrite length_fmap, length_entries.
  - unfold Signal_emit in Hemit. by rewrite HT in Hemit.
Qed.

(** X20. A disconnected listener is not called again: after
    [Signal::disconnect] of a registered connection, whatever the listeners
    do and however a later [emit] ends, it makes no call for that
    connection; and an [emit] that returns has called every other
    registered callable with the arguments of [emit], one call fewer than
    the table had entries. *)
Theorem disconnected_listener_not_called this c args h T f :
  wf h → signals h !! this = Some T → T !! c = Some f →
  ∃ h1,
    Signal_disconnect this c h = Some h1 ∧
    ∀ w r, Signal_emit run this args (h1, w) = Some r →
      (∀ g a, (c, g, a) ∉ calls_of r) ∧
      ∀ st' calls, r = Returned st' calls →
        (∀ c' g, c' ≠ c → T !! c' = Some g → (c', g, args) ∈ calls) ∧
        S (length calls) = size T.
Proof.
  intros Hwf HT Hf.
  destruct (Signal_disconnect_wf h this T c f Hwf HT Hf) as (C & HC & _ & Hop).
  assert (signals (unlinked this c C h) !! this = Some (delete c T)) as HT1.
  { simpl. by rewrite lookup_alter_eq, HT. }
  exists (unlinked this c C h). split; [done|]. intros w r Hemit. split.
  - intros g a Hin.
    destruct (Signal_emit_prefix run this args (unlinked this c C h, w) (delete c T) r
                HT1 Hemit) as [rest Hrest].
    assert ((c, g, a) ∈ call_of args <$> entries (delete c T)) as Hin'
      by (rewrite Hrest; set_solver).
    apply list_elem_of_fmap in Hin' as ([c' g'] & Heq & Hin'%elem_of_entries).
    unfold call_of in Heq. simplify_eq/=. by rewrite lookup_delete_eq in Hin'.
  - intros st' calls ->.
    destruct (Signal_emit_Returned run this args (unlinked this c C h, w) (delete c T)
                st' calls HT1 Hemit) as [-> _].
    split.
    + intros c' g Hne Hg. apply list_elem_of_fmap. exists (c', g). split; [done|].
      apply elem_of_entries. by rewrite lookup_delete_ne.
    + rewrite length_fmap, length_entries. symmetry. by eapply size_delete_registered.
Qed.

(** X21. After [disconnectAll] nothing is called: [emit] and the call
    operator return at once, with no call made and the state as it was. *)
Theorem disconnectAll_silences this args h w T :
  wf h → signals h !! this = Some T →
  ∃ h1, Signal_disconnectAll this h = Some h1 ∧
        Signal_emit run this args (h1, w) = Some (Returned (h1, w) []) ∧
        Signal_call run this args (h1, w) = Some (Returned (h1, w) []).
Proof.
  intros Hwf HT. exists (all_disconnected this T h).
  assert (signals (all_disconnected this T h) !! this = Some ∅) as Hempty.
  { simpl. by rewrite lookup_alter_eq, HT. }
  split_and!; [by apply Signal_disconnectAll_wf_eq| |].
  - unfold Signal_emit. cbn [fst]. rewrite Hempty. simpl. by rewrite entries_empty.
  - unfold Signal_call. cbn [fst]. rewrite Hempty. simpl. by rewrite entries_empty.
Qed.
End EmissionAfterDisconnection.

(** ** The further properties on the README's heap *)

Lemma demo_start_wf : wf demo_start.
Proof.
  assert (demo0 = Some demo_start) as H by (vm_compute; reflexivity).
  unfold demo0 in H. apply bind_Some in H as (h1 & H0 & H1).
  eapply Signal_new_wf; [|done]. eapply Slot_new_wf; [|done]. apply wf_empty.
Qed.

Lemma demo_heap_keeping_slots : rtc step_keeping_slots empty_heap demo_heap.
Proof.
  pose proof demo4_eq as H. unfold demo4, demo0 in H.
  apply bind_Some in H as (h2 & H0 & H).
  apply bind_Some in H0 as (h1 & H0 & H1).
  apply bind_Some in H as (h3 & H2 & H).
  apply bind_Some in H as (h4 & H3 & H).
  apply bind_Some in H as (h5 & H4 & H).
  eapply rtc_r; [|by eapply keep_connect_slot].
  eapply rtc_r; [|by eapply keep_connect].
  eapply rtc_r; [|by eapply keep_connect].
  eapply rtc_r; [|by eapply keep_connect].
  eapply rtc_r; [|by eapply keep_Signal_new].
  eapply rtc_once. by eapply keep_Slot_new.
Qed.

Lemma demo_heap_connection_4 :
  connections demo_heap !! 4%positive = Some (mkConnection (Some 1%positive) (Some 1%positive)).
Proof. vm_compute. reflexivity. Qed.

Lemma demo_heap_fresh_9 : connections demo_heap !! 9%positive = None.
Proof. vm_compute. reflexivity. Qed.

Lemma reachable_signal_backref_inv_witness :
  reachable demo_heap ∧ signal_backref_inv demo_heap.
Proof.
  split; [exact demo_heap_reachable|].
  exact (reachable_signal_backref_inv demo_heap demo_heap_reachable).
Defined.

Lemma reachable_connection_in_one_table_witness :
  reachable demo_heap ∧
  signals demo_heap !! 1%positive = Some demo_table ∧
  is_Some (demo_table !! 4%positive) ∧
  1%positive = 1%positive.
Proof.
  assert (is_Some (demo_table !! 4%positive)) as Hin by (eexists; vm_compute; reflexivity).
  split; [exact demo_heap_reachable|]. split; [exact demo_heap_signal|]. split; [exact Hin|].
  exact (reachable_connection_in_one_table demo_heap 1 1 demo_table demo_table 4
           demo_heap_reachable demo_heap_signal Hin demo_heap_signal Hin).
Defined.

Lemma reachable_slot_set_members_witness :
  reachable demo_heap ∧
  slots demo_heap !! 1%positive = Some {[ 4%positive ]} ∧
  ∃ C s T, connections demo_heap !! 4%positive = Some C ∧ m_pSlot C = Some 1%positive ∧
           m_pSignal C = Some s ∧ signals demo_heap !! s = Some T ∧ is_Some (T !! 4%positive).
Proof.
  split; [exact demo_heap_reachable|]. split; [exact demo_heap_slot|].
  apply (reachable_slot_set_members demo_heap 1 {[ 4%positive ]} 4).
  - exact demo_heap_reachable.
  - exact demo_heap_slot.
  - apply elem_of_singleton. reflexivity.
Defined.

Lemma reachable_bound_method_alive_witness :
  reachable demo_heap ∧
  signals demo_heap !! 1%positive = Some demo_table ∧
  demo_table !! 4%positive = Some (Method 1 0) ∧
  ∃ X C, slots demo_heap !! 1%positive = Some X ∧ 4%positive ∈ X ∧
         connections demo_heap !! 4%positive = Some C ∧
         m_pSignal C = Some 1%positive ∧ m_pSlot C = Some 1%positive.
Proof.
  split; [exact demo_heap_reachable|]. split; [exact demo_heap_signal|].
  split; [vm_compute; reflexivity|].
  apply (reachable_bound_method_alive demo_heap 1 demo_table 4 1 0).
  - exact demo_heap_reachable.
  - exact demo_heap_signal.
  - vm_compute. reflexivity.
Defined.

Lemma reachable_operations_defined_witness :
  reachable demo_heap ∧
  is_Some (Signal_disconnect 1 4 demo_heap) ∧
  is_Some (Connection_disconnect 4 demo_heap) ∧
  is_Some (Signal_disconnectAll 1 demo_heap) ∧
  is_Some (Signal_dtor 1 demo_heap) ∧
  is_Some (Slot_dtor 1 demo_heap).
Proof.
  pose proof (reachable_operations_defined demo_heap demo_heap_reachable)
    as (H1 & H2 & H3 & H4 & H5).
  assert (is_Some (signals demo_heap !! 1%positive)) as Hs by (eexists; exact demo_heap_signal).
  assert (is_Some (slots demo_heap !! 1%positive)) as Hsl by (eexists; exact demo_heap_slot).
  assert (is_Some (connections demo_heap !! 4%positive)) as Hc
    by (eexists; exact demo_heap_connection_4).
  split; [exact demo_heap_reachable|].
  split; [exact (H1 1%positive 4%positive Hs)|]. split; [exact (H2 4%positive Hc)|].
  split; [exact (H3 1%positive Hs)|]. split; [exact (H4 1%positive Hs)|].
  exact (H5 1%positive Hsl).
Defined.

Lemma keeping_slots_slot_backref_inv_witness :
  rtc step_keeping_slots empty_heap demo_heap ∧ slot_backref_inv demo_heap.
Proof.
  split; [exact demo_heap_keeping_slots|].
  exact (keeping_slots_slot_backref_inv demo_heap demo_heap_keeping_slots).
Defined.

Lemma Signal_connect_registers_witness :
  wf demo_heap ∧ signals demo_heap !! 1%positive = Some demo_table ∧
  connections demo_heap !! 9%positive = None ∧
  ∃ h', Signal_connect 1 7 9 demo_heap = Some h' ∧
        signals h' !! 1%positive = Some (<[9%positive:=Fn 7]> demo_table) ∧
        demo_table !! 9%positive = None ∧
        Signal_count 1 h' = Some (S (size demo_table)) ∧
        connections h' !! 9%positive = Some (mkConnection (Some 1%positive) None) ∧
        slots h' = slots demo_heap ∧
        (∀ s', s' ≠ 1%positive → signals h' !! s' = signals demo_heap !! s') ∧
        (∀ c', c' ≠ 9%positive → connections h' !! c' = connections demo_heap !! c').
Proof.
  split; [exact demo_heap_wf|]. split; [exact demo_heap_signal|].
  split; [exact demo_heap_fresh_9|].
  exact (Signal_connect_registers demo_heap 1 demo_table 7 9
           demo_heap_wf demo_heap_signal demo_heap_fresh_9).
Defined.

Lemma Signal_connect_slot_registers_witness :
  wf demo_heap ∧ signals demo_heap !! 1%positive = Some demo_table ∧
  slots demo_heap !! 1%positive = Some {[ 4%positive ]} ∧
  connections demo_heap !! 9%positive = None ∧
  ∃ h', Signal_connect_slot 1 1 7 9 demo_heap = Some h' ∧
        signals h' !! 1%positive = Some (<[9%positive:=Method 1 7]> demo_table) ∧
        demo_table !! 9%positive = None ∧
        Signal_count 1 h' = Some (S (size demo_table)) ∧
        connections h' !! 9%positive = Some (mkConnection (Some 1%positive) (Some 1%positive)) ∧
        slots h' !! 1%positive = Some ({[ 9%positive ]} ∪ {[ 4%positive ]}) ∧
        (9%positive ∉ ({[ 4%positive ]} : gset addr)) ∧
        (∀ s', s' ≠ 1%positive → signals h' !! s' = signals demo_heap !! s') ∧
        (∀ sl', sl' ≠ 1%positive → slots h' !! sl' = slots demo_heap !! sl') ∧
        (∀ c', c' ≠ 9%positive → connections h' !! c' = connections demo_heap !! c').
Proof.
  split; [exact demo_heap_wf|]. split; [exact demo_heap_signal|].
  split; [exact demo_heap_slot|]. split; [exact demo_heap_fresh_9|].
  exact (Signal_connect_slot_registers demo_heap 1 demo_table 1 {[ 4%positive ]} 7 9
           demo_heap_wf demo_heap_signal demo_heap_slot demo_heap_fresh_9).
Defined.

Lemma connect_listeners_count_witness :
  wf demo_start ∧ signals demo_start !! 1%positive = Some ∅ ∧
  ∃ h' T', for_each (connect_listener 1) demo_listeners demo_start = Some h' ∧
           signals h' !! 1%positive = Some T' ∧
           Signal_count 1 h' = Some (length demo_listeners) ∧
           (∀ c g, T' !! c = Some g ↔ (g, c) ∈ demo_listeners).
Proof.
  assert (signals demo_start !! 1%positive = Some ∅) as Hs by (vm_compute; reflexivity).
  split; [exact demo_start_wf|]. split; [exact Hs|].
  apply (connect_listeners_count demo_start 1 demo_listeners demo_start_wf Hs).
  - vm_compute. repeat constructor; set_solver.
  - intros c _. vm_compute. reflexivity.
  - intros c sl m Hin. unfold demo_listeners in Hin.
    repeat (apply elem_of_cons in Hin as [Hin|Hin];
            [simplify_eq; eexists; vm_compute; reflexivity|]).
    by apply elem_of_nil in Hin.
Defined.

Lemma connect_disconnect_round_trip_witness :
  wf demo_heap ∧
  ∃ h1, Signal_connect 1 7 9 demo_heap = Some h1 ∧
  ∃ h2, Signal_disconnect 1 9 h1 = Some h2 ∧
        Connection_disconnect 9 h1 = Some h2 ∧
        signals h2 = signals demo_heap ∧ slots h2 = slots demo_heap ∧
        connections h2 = <[9%positive:=mkConnection None None]> (connections demo_heap).
Proof.
  split; [exact demo_heap_wf|].
  assert (∃ h1, Signal_connect 1 7 9 demo_heap = Some h1) as [h1 H1]
    by (eexists; vm_compute; reflexivity).
  exists h1. split; [exact H1|].
  exact (connect_disconnect_round_trip demo_heap 1 7 9 h1 demo_heap_wf H1).
Defined.

Lemma connect_slot_disconnect_round_trip_witness :
  wf demo_heap ∧
  ∃ h1, Signal_connect_slot 1 1 7 9 demo_heap = Some h1 ∧
  ∃ h2, Signal_disconnect 1 9 h1 = Some h2 ∧
        Connection_disconnect 9 h1 = Some h2 ∧
        signals h2 = signals demo_heap ∧ slots h2 = slots demo_heap ∧
        connections h2 = <[9%positive:=mkConnection None None]> (connections demo_heap).
Proof.
  split; [exact demo_heap_wf|].
  assert (∃ h1, Signal_connect_slot 1 1 7 9 demo_heap = Some h1) as [h1 H1]
    by (eexists; vm_compute; reflexivity).
  exists h1. split; [exact H1|].
  exact (connect_slot_disconnect_round_trip demo_heap 1 1 7 9 h1 demo_heap_wf H1).
Defined.

Lemma Signal_disconnect_frame_witness :
  wf demo_heap ∧ signals demo_heap !! 1%positive = Some demo_table ∧
  ∃ h', Signal_disconnect 1 4 demo_heap = Some h' ∧
        signals h' !! 1%positive = Some (delete 4%positive demo_table) ∧
        (∀ s', s' ≠ 1%positive → signals h' !! s' = signals demo_heap !! s') ∧
        (∀ c', c' ≠ 4%positive → connections h' !! c' = connections demo_heap !! c') ∧
        (∀ sl X, slots demo_heap !! sl = Some X →
           ∃ X', slots h' !! sl = Some X' ∧ X ∖ {[ 4%positive ]} ⊆ X' ∧ X' ⊆ X).
Proof.
  split; [exact demo_heap_wf|]. split; [exact demo_heap_signal|].
  assert (∃ h', Signal_disconnect 1 4 demo_heap = Some h') as [h' H']
    by (eexists; vm_compute; reflexivity).
  exists h'. split; [exact H'|].
  exact (Signal_disconnect_frame demo_heap 1 demo_table 4 h' demo_heap_wf demo_heap_signal H').
Defined.

Lemma Slot_dtor_frame_witness :
  wf demo_heap ∧ slots demo_heap !! 1%positive = Some {[ 4%positive ]} ∧
  ∃ h', Slot_dtor 1 demo_heap = Some h' ∧
        (∀ s T, signals demo_heap !! s = Some T →
           ∃ T', signals h' !! s = Some T' ∧
                 ∀ c g, T' !! c = Some g ↔ T !! c = Some g ∧ c ∉ ({[ 4%positive ]} : gset addr)) ∧
        (∀ s, signals demo_heap !! s = None → signals h' !! s = None) ∧
        (∀ c, c ∉ ({[ 4%positive ]} : gset addr) →
           connections h' !! c = connections demo_heap !! c) ∧
        (∀ sl', sl' ≠ 1%positive → slots h' !! sl' = slots demo_heap !! sl').
Proof.
  split; [exact demo_heap_wf|]. split; [exact demo_heap_slot|].
  exact (Slot_dtor_frame demo_heap 1 {[ 4%positive ]} demo_heap_wf demo_heap_slot).
Defined.

Lemma Signal_dtor_effect_witness :
  wf demo_heap ∧ signals demo_heap !! 1%positive = Some demo_table ∧
  ∃ h', Signal_dtor 1 demo_heap = Some h' ∧ wf h' ∧
        signals h' !! 1%positive = None ∧
        (∀ s', s' ≠ 1%positive → signals h' !! s' = signals demo_heap !! s') ∧
        (∀ sl X, slots demo_heap !! sl = Some X → slots h' !! sl = Some (X ∖ dom demo_table)) ∧
        (∀ c C, is_Some (demo_table !! c) → connections demo_heap !! c = Some C →
           connections h' !! c = Some (mkConnection None (m_pSlot C))) ∧
        (∀ c, demo_table !! c = None → connections h' !! c = connections demo_heap !! c).
Proof.
  split; [exact demo_heap_wf|]. split; [exact demo_heap_signal|].
  exact (Signal_dtor_effect demo_heap 1 demo_table demo_heap_wf demo_heap_signal).
Defined.

Lemma Connection_inert_after_Signal_dtor_witness :
  wf demo_heap ∧ signals demo_heap !! 1%positive = Some demo_table ∧
  is_Some (demo_table !! 4%positive) ∧
  ∃ h', Signal_dtor 1 demo_heap = Some h' ∧
        Connection_disconnect 4 h' = Some h' ∧
        ∀ s', is_Some (signals h' !! s') → Signal_disconnect s' 4 h' = Some h'.
Proof.
  assert (is_Some (demo_table !! 4%positive)) as Hin by (eexists; vm_compute; reflexivity).
  split; [exact demo_heap_wf|]. split; [exact demo_heap_signal|]. split; [exact Hin|].
  exact (Connection_inert_after_Signal_dtor demo_heap 1 demo_table 4
           demo_heap_wf demo_heap_signal Hin).
Defined.

Lemma Connection_inert_after_Slot_dtor_witness :
  wf demo_heap ∧ slots demo_heap !! 1%positive = Some {[ 4%positive ]} ∧
  ∃ h', Slot_dtor 1 demo_heap = Some h' ∧
        connections h' !! 4%positive = Some (mkConnection None None) ∧
        Connection_disconnect 4 h' = Some h' ∧
        ∀ s', is_Some (signals h' !! s') → Signal_disconnect s' 4 h' = Some h'.
Proof.
  split; [exact demo_heap_wf|]. split; [exact demo_heap_slot|].
  apply (Connection_inert_after_Slot_dtor demo_heap 1 {[ 4%positive ]} 4
           demo_heap_wf demo_heap_slot).
  apply elem_of_singleton. reflexivity.
Defined.

Lemma Signal_disconnectAll_twice_witness :
  wf demo_heap ∧
  ∃ h1, Signal_disconnectAll 1 demo_heap = Some h1 ∧
        Signal_disconnectAll 1 h1 = Some h1 ∧ Signal_count 1 h1 = Some 0.
Proof.
  split; [exact demo_heap_wf|].
  assert (∃ h1, Signal_disconnectAll 1 demo_heap = Some h1) as [h1 H1]
    by (eexists; vm_compute; reflexivity).
  exists h1. split; [exact H1|].
  exact (Signal_disconnectAll_twice demo_heap 1 h1 demo_heap_wf H1).
Defined.

Lemma disconnectAll_vs_disconnect_each_witness :
  wf demo_heap ∧ signals demo_heap !! 1%positive = Some demo_table ∧
  ∃ h1 h2,
    Signal_disconnectAll 1 demo_heap = Some h1 ∧
    for_each (Signal_disconnect 1) (entries demo_table).*1 demo_heap = Some h2 ∧
    signals h1 = signals h2 ∧ slots h1 = slots h2 ∧
    (∀ c, m_pSignal <$> connections h1 !! c = m_pSignal <$> connections h2 !! c) ∧
    (∀ c, demo_table !! c = None → connections h1 !! c = connections h2 !! c) ∧
    (∀ c, is_Some (demo_table !! c) → connections h2 !! c = Some (mkConnection None None)).
Proof.
  split; [exact demo_heap_wf|]. split; [exact demo_heap_signal|].
  exact (disconnectAll_vs_disconnect_each demo_heap 1 demo_table demo_heap_wf demo_heap_signal).
Defined.

(** ** Counting, and the order of calls *)

(** X22. In every reachable heap [count()] is the number of connection
    records whose [m_pSignal] is this signal. *)
Theorem reachable_count_connected h s T :
  reachable h → signals h !! s = Some T →
  Signal_count s h =
    Some (size (filter (λ kv : addr * Connection, m_pSignal kv.2 = Some s) (connections h))).
Proof.
  intros Hwf%reachable_wf HT. unfold Signal_count. rewrite HT. simpl. f_equal.
  rewrite <-!size_dom. f_equal. symmetry. apply dom_filter_L. intros c.
  rewrite elem_of_dom. simpl. split.
  - intros [f Hf]. destruct (wf_table _ Hwf _ _ _ _ HT Hf) as (C & HC & HpS & _). eauto.
  - intros (C & HC & HpS). destruct (wf_pSignal _ Hwf _ _ _ HC HpS) as (T' & HT' & Hin).
    by simplify_eq.
Qed.

Lemma Signal_disconnect_each_disconnected_absent h s T D c :
  signals h !! s = Some T → c ∈ D ∨ T !! c = None →
  Signal_disconnect s c (each_disconnected s D h) = Some (each_disconnected s D h).
Proof.
  intros HT Hc. eapply Signal_disconnect_absent.
  - simpl. by rewrite lookup_alter_eq, HT.
  - apply map_lookup_filter_None. destruct Hc as [Hc|Hc]; [right|by left].
    intros f _. simpl. by intros Hn.
Qed.

Lemma for_each_Signal_disconnect_any h s T l D :
  wf h → signals h !! s = Some T →
  for_each (Signal_disconnect s) l (each_disconnected s D h) =
    Some (each_disconnected s (D ∪ (list_to_set l ∩ dom T)) h).
Proof.
  intros Hwf HT. revert D. induction l as [|c l IH]; intros D; simpl.
  - f_equal. f_equal. set_solver.
  - destruct (decide (c ∈ D ∨ T !! c = None)) as [Hc|Hc].
    + rewrite (Signal_disconnect_each_disconnected_absent h s T D c) by done. simpl.
      rewrite IH. f_equal. f_equal. destruct Hc as [Hc|Hc%not_elem_of_dom]; set_solver.
    + assert (c ∉ D) as HD by (intros ?; apply Hc; by left).
      destruct (T !! c) as [f|] eqn:Hf; [|destruct Hc; by right].
      rewrite (Signal_disconnect_each_disconnected h s T D c f) by done. simpl.
      rewrite IH. f_equal. f_equal.
      assert (c ∈ dom T) by (apply elem_of_dom; eauto). set_solver.
Qed.

(** X23. The order of [Signal::disconnect] calls does not matter:
    disconnecting the connections of a list from a signal one after the
    other gives the same heap for every arrangement of the list, with or
    without repetitions and handles that are not in the table. *)
Theorem disconnect_order_irrelevant h s T l l' :
  wf h → signals h !! s = Some T → l ≡ₚ l' →
  ∃ h', for_each (Signal_disconnect s) l h = Some h' ∧
        for_each (Signal_disconnect s) l' h = Some h'.
Proof.
  intros Hwf HT Hperm. exists (each_disconnected s (∅ ∪ (list_to_set l ∩ dom T)) h).
  split.
  - rewrite <-(each_disconnected_empty s h) at 1. by apply for_each_Signal_disconnect_any.
  - rewrite <-(each_disconnected_empty s h) at 1.
    rewrite (for_each_Signal_disconnect_any h s T l' ∅) by done.
    f_equal. f_equal. f_equal. f_equal. apply set_eq. intros c.
    by rewrite !elem_of_list_to_set, Hperm.
Qed.

(** ** Destroying a signal and a slot object *)

(** X24. A signal and a slot object can be destroyed in either order:
    both orders run to their end, leave a well-formed heap, and agree on
    every remaining table, every remaining slot's set and every
    connection's [m_pSignal]. *)
Theorem destruction_order_irrelevant h s T sl X :
  wf h → signals h !! s = Some T → slots h !! sl = Some X →
  ∃ h1 h2 h1' h2',
    Signal_dtor s h = Some h1 ∧ Slot_dtor sl h1 = Some h2 ∧
    Slot_dtor sl h = Some h1' ∧ Signal_dtor s h1' = Some h2' ∧
    wf h2 ∧ wf h2' ∧
    signals h2 = signals h2' ∧ slots h2 = slots h2' ∧
    ∀ c, m_pSignal <$> connections h2 !! c = m_pSignal <$> connections h2' !! c.
Proof.
  intros Hwf HT HX.
  set (h1 := Signal_destroyed s T h). set (h1' := Slot_destroyed sl X h).
  pose proof (Signal_destroyed_wf h s T Hwf HT) as Hwf1.
  pose proof (Slot_destroyed_wf h sl X Hwf HX) as Hwf1'.
  assert (slots h1 !! sl = Some (X ∖ dom T)) as HX1.
  { unfold h1, Signal_destroyed. cbn [slots cut]. by rewrite lookup_fmap, HX. }
  assert (signals h1' !! s = Some (filter (λ kv, kv.1 ∉ X) T)) as HT1'.
  { unfold h1', Slot_destroyed. cbn [signals severed]. by rewrite lookup_fmap, HT. }
  exists h1, (Slot_destroyed sl (X ∖ dom T) h1), h1',
    (Signal_destroyed s (filter (λ kv, kv.1 ∉ X) T) h1').
  assert (∀ c, c ∈ dom (filter (λ kv : addr * Callable, kv.1 ∉ X) T) ↔ c ∈ dom T ∧ c ∉ X)
    as Hdom.
  { intros c. rewrite !elem_of_dom. unfold is_Some.
    setoid_rewrite map_lookup_filter_Some. simpl. naive_solver. }
  split_and!.
  - by apply Signal_dtor_wf_eq.
  - by apply Slot_dtor_wf_eq.
  - by apply Slot_dtor_wf_eq.
  - by apply Signal_dtor_wf_eq.
  - by apply Slot_destroyed_wf.
  - by apply Signal_destroyed_wf.
  - unfold Slot_destroyed, Signal_destroyed, h1, h1', Slot_destroyed, Signal_destroyed.
    cbn [signals severed cut]. apply map_eq; intros s'.
    destruct (decide (s' = s)) as [->|Hne].
    + by rewrite lookup_fmap, !lookup_delete_eq.
    + rewrite lookup_fmap, !lookup_delete_ne, lookup_fmap by done.
      destruct (signals h !! s') as [T'|] eqn:HT'; simpl; [|done]. f_equal.
      apply map_filter_ext. intros c g Hg. simpl.
      assert (c ∉ dom T); [|set_solver].
      intros [g' Hg']%elem_of_dom.
      destruct (wf_table _ Hwf _ _ _ _ HT Hg') as (? & ? & ? & _).
      destruct (wf_table _ Hwf _ _ _ _ HT' Hg) as (? & ? & ? & _). congruence.
  - unfold Slot_destroyed, Signal_destroyed, h1, h1', Slot_destroyed, Signal_destroyed.
    cbn [slots severed cut]. apply map_eq; intros sl'.
    destruct (decide (sl' = sl)) as [->|Hne].
    + by rewrite lookup_fmap, !lookup_delete_eq.
    + rewrite lookup_fmap, !lookup_delete_ne, lookup_fmap by done.
      destruct (slots h !! sl') as [X'|] eqn:HX'; simpl; [|done]. f_equal.
      apply set_eq. intros c. rewrite !elem_of_difference, Hdom.
      assert (c ∈ X' → c ∉ X); [|naive_solver].
      intros Hc Hc'.
      destruct (wf_set _ Hwf _ _ _ HX Hc') as (? & ? & ? & _).
      destruct (wf_set _ Hwf _ _ _ HX' Hc) as (? & ? & ? & _). congruence.
  - intros c.
    unfold Slot_destroyed, Signal_destroyed, h1, h1', Slot_destroyed, Signal_destroyed.
    cbn [connections severed cut]. rewrite !map_lookup_imap.
    destruct (connections h !! c) as [C|]; simpl; [|done].
    specialize (Hdom c).
    destruct (decide (c ∈ dom T)), (decide (c ∈ X)); simpl;
      repeat case_decide; simpl; try done; set_solver.
Qed.

Lemma reachable_count_connected_witness :
  reachable demo_heap ∧ signals demo_heap !! 1%positive = Some demo_table ∧
  Signal_count 1 demo_heap =
    Some (size (filter (λ kv : addr * Connection, m_pSignal kv.2 = Some 1%positive)
                  (connections demo_heap))).
Proof.
  split; [exact demo_heap_reachable|]. split; [exact demo_heap_signal|].
  exact (reachable_count_connected demo_heap 1 demo_table demo_heap_reachable demo_heap_signal).
Defined.

Lemma disconnect_order_irrelevant_witness :
  wf demo_heap ∧ signals demo_heap !! 1%positive = Some demo_table ∧
  [1%positive; 4%positive] ≡ₚ [4%positive; 1%positive] ∧
  ∃ h', for_each (Signal_disconnect 1) [1%positive; 4%positive] demo_heap = Some h' ∧
        for_each (Signal_disconnect 1) [4%positive; 1%positive] demo_heap = Some h'.
Proof.
  assert ([1%positive; 4%positive] ≡ₚ [4%positive; 1%positive]) as Hperm by apply perm_swap.
  split; [exact demo_heap_wf|]. split; [exact demo_heap_signal|]. split; [exact Hperm|].
  exact (disconnect_order_irrelevant demo_heap 1 demo_table _ _
           demo_heap_wf demo_heap_signal Hperm).
Defined.

Lemma destruction_order_irrelevant_witness :
  wf demo_heap ∧ signals demo_heap !! 1%positive = Some demo_table ∧
  slots demo_heap !! 1%positive = Some {[ 4%positive ]} ∧
  ∃ h1 h2 h1' h2',
    Signal_dtor 1 demo_heap = Some h1 ∧ Slot_dtor 1 h1 = Some h2 ∧
    Slot_dtor 1 demo_heap = Some h1' ∧ Signal_dtor 1 h1' = Some h2' ∧
    wf h2 ∧ wf h2' ∧
    signals h2 = signals h2' ∧ slots h2 = slots h2' ∧
    ∀ c, m_pSignal <$> connections h2 !! c = m_pSignal <$> connections h2' !! c.
Proof.
  split; [exact demo_heap_wf|]. split; [exact demo_heap_signal|]. split; [exact demo_heap_slot|].
  exact (destruction_order_irrelevant demo_heap 1 demo_table 1 {[ 4%positive ]}
           demo_heap_wf demo_heap_signal demo_heap_slot).
Defined.

(** ** The order of events in Connection::disconnect *)

(** The traced functions change the heap as the plain ones do. *)
Lemma Signal_disconnect_traced_heap s c h :
  snd <$> Signal_disconnect_traced s c h = Signal_disconnect s c h.
Proof.
  unfold Signal_disconnect_traced, Signal_disconnect.
  destruct (signals h !! s) as [T|]; simpl; [|done].
  destruct (T !! c); [|done]. simpl.
  destruct (connections h !! c) as [C|]; simpl; [|done].
  destruct (m_pSlot C) as [sl|]; [|done]. simpl.
  by destruct (slots h !! sl).
Qed.

Lemma Connection_disconnect_traced_heap c h :
  snd <$> Connection_disconnect_traced c h = Connection_disconnect c h.
Proof.
  unfold Connection_disconnect_traced, Connection_disconnect.
  destruct (connections h !! c) as [C|]; simpl; [|done].
  destruct (m_pSignal C) as [s|]; [|done].
  rewrite <-Signal_disconnect_traced_heap.
  by destruct (Signal_disconnect_traced s c h) as [[events h']|].
Qed.

(** C7, as the code has it.  On a well-formed heap, [Connection::disconnect]
    on a connection whose [m_pSignal] is null takes and releases the
    connection's mutex and changes nothing.  When [m_pSignal] is the signal
    [s], it takes the connection's mutex and calls the removal entry point
    of [s] with a handle that does not own the connection, on the heap as
    it is, [m_pSignal] still set; the entry point takes the signal's
    mutex, erases the connection from the table, takes the connection's
    (recursive) mutex again and only then nulls [m_pSignal] (and, for a
    connection with a target slot, erases it from the slot's set under the
    slot's mutex and nulls [m_pSlot]); the mutexes are released in reverse
    order, the connection's own last.  The call ends with [m_pSignal] null
    and the connection out of the table. *)
Theorem Connection_disconnect_order h c C :
  wf h → connections h !! c = Some C →
  (m_pSignal C = None →
     Connection_disconnect_traced c h =
       Some ([Acquire (ConnectionMutex c); Release (ConnectionMutex c)], h)) ∧
  (∀ s, m_pSignal C = Some s →
     ∃ slot_part h',
       Connection_disconnect_traced c h =
         Some ([Acquire (ConnectionMutex c); CallDisconnect s c false;
                Acquire (SignalMutex s); EraseEntry s c;
                Acquire (ConnectionMutex c); WriteSignal c None] ++
               slot_part ++
               [Release (ConnectionMutex c); Release (SignalMutex s);
                Release (ConnectionMutex c)],
               h') ∧
       slot_part =
         match m_pSlot C with
         | Some sl => [Acquire (SlotMutex sl); EraseMember sl c; WriteSlot c None;
                       Release (SlotMutex sl)]
         | None => []
         end ∧
       Connection_disconnect c h = Some h' ∧
       Signal_disconnect s c h = Some h' ∧
       connections h' !! c = Some (mkConnection None None) ∧
       ∃ T, signals h' !! s = Some T ∧ T !! c = None).
Proof.
  intros Hwf HC. split.
  - intros HpS. unfold Connection_disconnect_traced. rewrite HC. simpl. by rewrite HpS.
  - intros s HpS.
    destruct (wf_pSignal _ Hwf _ _ _ HC HpS) as (T & HT & [f Hf]).
    destruct (Signal_disconnect_wf h s T c f Hwf HT Hf) as (C' & HC' & _ & Heq).
    assert (C' = C) as -> by congruence.
    assert (Connection_disconnect c h = Some (unlinked s c C h)) as Hconn.
    { unfold Connection_disconnect. rewrite HC. simpl. by rewrite HpS. }
    eexists _, (unlinked s c C h). split_and!; [|done|done|done| |].
    + pose proof (Signal_disconnect_traced_heap s c h) as Hheap. rewrite Heq in Hheap.
      unfold Connection_disconnect_traced. rewrite HC. simpl. rewrite HpS.
      unfold Signal_disconnect_traced in *. rewrite HT in *. simpl in *. rewrite Hf in *.
      rewrite HC in *. simpl in *.
      destruct (m_pSlot C) as [sl|].
      * destruct (slots h !! sl); simpl in *; [|done].
        apply (inj Some) in Hheap. by rewrite Hheap.
      * simpl in *. apply (inj Some) in Hheap. by rewrite Hheap.
    + simpl. by rewrite lookup_insert_eq.
    + exists (delete c T). simpl. rewrite lookup_alter_eq, HT. split; [done|].
      apply lookup_delete_eq.
Qed.

(** [onMove(10, 20); onMove.emit(40, 50);] delivers [(10, 20)], then
    [(40, 50)]: two deliveries in all. *)
Example onMove_two_deliveries :
  (r1 ← Signal_call (returning record_args) 1 (10, 20) (onMove_heap, []);
   st1 ← final_state r1;
   r2 ← Signal_emit (returning record_args) 1 (40, 50) st1;
   st2 ← final_state r2;
   Some st2.2) = Some [(10, 20); (40, 50)].
Proof. vm_compute. reflexivity. Qed.



Lemma Signal_emit_frame_witness :
  wf demo_heap ∧
  signals demo_heap !! 1%positive = Some demo_table ∧
  ∃ r,
    Signal_emit (returning record_args) 1 7 (demo_heap, []) = Some r ∧
    (∀ st', final_state r = Some st' →
       st'.1 = demo_heap ∧ Signal_count 1 st'.1 = Signal_count 1 demo_heap) ∧
    ((∀ c f a st, demo_table !! c = Some f →
        returning (W:=list nat) record_args f a st ≠ Hangs) →
     is_Some (final_state r)) ∧
    ((∀ c f a st, demo_table !! c = Some f →
        ∃ st', returning (W:=list nat) record_args f a st = Returns st') →
     ∃ st' calls, r = Returned st' calls ∧ st'.1 = demo_heap ∧
                  Signal_count 1 st'.1 = Signal_count 1 demo_heap).
Proof.
  split; [exact demo_heap_wf|]. split; [exact demo_heap_signal|].
  apply (Signal_emit_frame (returning record_args) 1 7 demo_heap [] demo_table).
  - exact demo_heap_wf.
  - exact demo_heap_signal.
  - intros c f a st st' _ H. injection H as <-. reflexivity.
Defined.

Lemma Slot_dtor_teardown_witness :
  wf demo_heap ∧
  slots demo_heap !! 1%positive = Some {[ 4%positive ]} ∧
  (∃ h1, Slot_dtor_loop 1 demo_heap = Some h1 ∧
     slots h1 !! 1%positive = Some {[ 4%positive ]} ∧
     ∀ c, c ∈ ({[ 4%positive ]} : gset addr) →
       connections h1 !! c = Some (mkConnection None None)) ∧
  ∃ h', Slot_dtor 1 demo_heap = Some h' ∧ wf h' ∧ slots h' !! 1%positive = None ∧
    (∀ s T, signals demo_heap !! s = Some T →
       ∃ n, Signal_count s h' = Some n ∧ n + size ({[ 4%positive ]} ∩ dom T) = size T) ∧
    (∀ s args w r,
       Signal_emit (returning (record_args (A:=nat))) s args (h', w) = Some r →
       ∀ c f a m, (c, f, a) ∈ calls_of r → f ≠ Method 1 m).
Proof.
  split; [exact demo_heap_wf|]. split; [exact demo_heap_slot|].
  exact (proj2 (Slot_dtor_teardown (returning (record_args (A:=nat))) demo_heap 1
                  {[ 4%positive ]} demo_heap_wf demo_heap_slot)).
Defined.

(** C7, as stated, on the README's heap: [Connection::disconnect] on the
    connection to [foobar] calls the removal entry point of the signal
    before any write of [m_pSignal]; the write comes after the erase,
    inside [Signal::disconnect]. *)
Lemma Connection_disconnect_calls_before_nulling :
  ∃ events h',
    Connection_disconnect_traced 4 demo_heap = Some (events, h') ∧
    events =
      [Acquire (ConnectionMutex 4); CallDisconnect 1 4 false;
       Acquire (SignalMutex 1); EraseEntry 1 4;
       Acquire (ConnectionMutex 4); WriteSignal 4 None;
       Acquire (SlotMutex 1); EraseMember 1 4; WriteSlot 4 None; Release (SlotMutex 1);
       Release (ConnectionMutex 4); Release (SignalMutex 1);
       Release (ConnectionMutex 4)] ∧
    ¬ nulls_before_call 4 events.
Proof.
  eexists _, _. split; [vm_compute; reflexivity|]. split; [reflexivity|].
  intros (pre & s & owning & post & Heq & Hin).
  repeat (destruct pre as [|? pre];
          [try discriminate Heq; try (by apply elem_of_nil in Hin);
           repeat (apply elem_of_cons in Hin as [Hin|Hin]; [discriminate Hin|]);
           by apply elem_of_nil in Hin
          |injection Heq as <- Heq]).
  destruct pre; discriminate Heq.
Qed.

Lemma Connection_disconnect_order_witness :
  wf demo_heap ∧
  connections demo_heap !! 4%positive =
    Some (mkConnection (Some 1%positive) (Some 1%positive)) ∧
  ∃ slot_part h',
    Connection_disconnect_traced 4 demo_heap =
      Some ([Acquire (ConnectionMutex 4); CallDisconnect 1 4 false;
             Acquire (SignalMutex 1); EraseEntry 1 4;
             Acquire (ConnectionMutex 4); WriteSignal 4 None] ++
            slot_part ++
            [Release (ConnectionMutex 4); Release (SignalMutex 1);
             Release (ConnectionMutex 4)],
            h') ∧
    slot_part =
      [Acquire (SlotMutex 1); EraseMember 1 4; WriteSlot 4 None; Release (SlotMutex 1)] ∧
    Connection_disconnect 4 demo_heap = Some h' ∧
    Signal_disconnect 1 4 demo_heap = Some h' ∧
    connections h' !! 4%positive = Some (mkConnection None None) ∧
    ∃ T, signals h' !! 1%positive = Some T ∧ T !! 4%positive = None.
Proof.
  split; [exact demo_heap_wf|]. split; [exact demo_heap_connection_4|].
  exact (proj2 (Connection_disconnect_order demo_heap 4
                  (mkConnection (Some 1%positive) (Some 1%positive))
                  demo_heap_wf demo_heap_connection_4) 1%positive eq_refl).
Defined.

Lemma Signal_emit_in_address_order_witness :
  ∃ r,
    Signal_emit (empty_function_at (A:=nat) 1) 1 7 (demo_heap, []) = Some r ∧
    StronglySorted Pos.lt (calls_of r).*1.*1 ∧
    ∀ st' calls, r = Returned st' calls →
      Signal_count 1 demo_heap = Some (length calls).
Proof.
  assert (∃ r, Signal_emit (empty_function_at (A:=nat) 1) 1 7 (demo_heap, []) = Some r)
    as [r H] by (eexists; vm_compute; reflexivity).
  exists r. split; [exact H|].
  exact (Signal_emit_in_address_order (empty_function_at (A:=nat) 1) 1 7 (demo_heap, []) r H).
Defined.

Lemma disconnected_listener_not_called_witness :
  wf demo_heap ∧ signals demo_heap !! 1%positive = Some demo_table ∧
  demo_table !! 1%positive = Some (Fn 0) ∧
  ∃ h1,
    Signal_disconnect 1 1 demo_heap = Some h1 ∧
    ∀ w r, Signal_emit (returning (record_args (A:=nat))) 1 7 (h1, w) = Some r →
      (∀ g a, (1%positive, g, a) ∉ calls_of r) ∧
      ∀ st' calls, r = Returned st' calls →
        (∀ c' g, c' ≠ 1%positive → demo_table !! c' = Some g → (c', g, 7) ∈ calls) ∧
        S (length calls) = size demo_table.
Proof.
  assert (demo_table !! 1%positive = Some (Fn 0)) as Hf by (vm_compute; reflexivity).
  split; [exact demo_heap_wf|]. split; [exact demo_heap_signal|]. split; [exact Hf|].
  exact (disconnected_listener_not_called (returning (record_args (A:=nat))) 1 1 7 demo_heap
           demo_table (Fn 0) demo_heap_wf demo_heap_signal Hf).
Defined.

Lemma disconnectAll_silences_witness :
  wf demo_heap ∧ signals demo_heap !! 1%positive = Some demo_table ∧
  ∃ h1, Signal_disconnectAll 1 demo_heap = Some h1 ∧
        Signal_emit (returning (record_args (A:=nat))) 1 7 (h1, []) =
          Some (Returned (h1, []) []) ∧
        Signal_call (returning (record_args (A:=nat))) 1 7 (h1, []) =
          Some (Returned (h1, []) []).
Proof.
  split; [exact demo_heap_wf|]. split; [exact demo_heap_signal|].
  exact (disconnectAll_silences (returning (record_args (A:=nat))) 1 7 demo_heap []
           demo_table demo_heap_wf demo_heap_signal).
Defined.

(** A listener that disconnects another connection of the emitting signal,
    as [Signal::disconnect] would leave the heap, cannot come back from
    that call: it waits for the mutex [emit] holds. *)
Example listener_on_emitting_signal_blocks :
  Signal_emit (disconnecting_at 0 1 2) 1 7 (demo_heap, []) =
    Some (Blocked [(1%positive, Fn 0, 7)]).
Proof. vm_compute. reflexivity. Qed.
